(** * MOSIQA: the track service

    A shallow embedding of [src/app/core/services/track/track.service.ts]
    (class [TrackService]) and of the few pieces of the JavaScript runtime
    and of RxJS that it relies on, followed by the properties of the track
    life cycle (create, update, delete, reload, select).

    How the TypeScript is read:
    - every observable of the service is single-shot (it emits one value and
      completes, or it errors); it is modelled by the storage calls it issues,
      in order, together with its one notification;
    - the storage service, the clock, the random generator and the media
      element are collaborators: their answers are parameters;
    - the projection ([_tracks$], [_state], [_error], [_selectedTrack]) is a
      record, passed in and returned by every operation; the signal
      [tracks] mirrors [_tracks$] and has no field of its own;
    - an operation runs from its call to its notification without another
      one in between. *)

From Stdlib Require Import List String Ascii ZArith QArith Lia Bool.
From Stdlib Require Import Sorted Permutation DecimalString DecimalZ.
Import ListNotations.

Close Scope Q_scope.
Local Open Scope Z_scope.
Local Open Scope list_scope.
Local Open Scope string_scope.

(* ================================================================== *)
(** ** JavaScript runtime *)

Module Js.

(** A string is the UTF-8 encoding of the JavaScript string (as the
    string literals of this file are).

    The ECMAScript WhiteSpace and LineTerminator code points, by the
    length of their encoding:
    - one byte: U+0009 to U+000D (TAB, LF, VT, FF, CR) and U+0020;
    - two bytes: U+00A0 (C2 A0);
    - three bytes: U+1680 (E1 9A 80), U+2000 to U+200A (E2 80 80 to
      E2 80 8A), U+2028 and U+2029 (E2 80 A8, E2 80 A9), U+202F
      (E2 80 AF), U+205F (E2 81 9F), U+3000 (E3 80 80) and U+FEFF
      (EF BB BF). *)
Definition isWhiteSpace1 (c : ascii) : bool :=
  let n := N_of_ascii c in
  ((9 <=? n) && (n <=? 13) || (n =? 32))%N.

Definition isWhiteSpace2 (c1 c2 : ascii) : bool :=
  ((N_of_ascii c1 =? 194) && (N_of_ascii c2 =? 160))%N.

Definition isWhiteSpace3 (c1 c2 c3 : ascii) : bool :=
  let a := N_of_ascii c1 in
  let b := N_of_ascii c2 in
  let c := N_of_ascii c3 in
  ((a =? 225) && (b =? 154) && (c =? 128)
   || (a =? 226) && (b =? 128)
      && ((128 <=? c) && (c <=? 138) || (c =? 168) || (c =? 169) || (c =? 175))
   || (a =? 226) && (b =? 129) && (c =? 159)
   || (a =? 227) && (b =? 128) && (c =? 128)
   || (a =? 239) && (b =? 187) && (c =? 191))%N.

(** Dropping, from the front, the code points that [w1], [w2] and [w3]
    recognise on one, two and three bytes. *)
Section Strip.
Variable w1 : ascii -> bool.
Variable w2 : ascii -> ascii -> bool.
Variable w3 : ascii -> ascii -> ascii -> bool.

Fixpoint strip (s : string) : string :=
  match s with
  | EmptyString => EmptyString
  | String c1 s1 =>
      if w1 c1 then strip s1
      else
        match s1 with
        | EmptyString => s
        | String c2 s2 =>
            if w2 c1 c2 then strip s2
            else
              match s2 with
              | EmptyString => s
              | String c3 s3 => if w3 c1 c2 c3 then strip s3 else s
              end
        end
  end.

(** The string begins with one of these code points. *)
Definition starts (s : string) : bool :=
  match s with
  | EmptyString => false
  | String c1 s1 =>
      w1 c1
      || match s1 with
         | EmptyString => false
         | String c2 s2 =>
             w2 c1 c2
             || match s2 with
                | EmptyString => false
                | String c3 _ => w3 c1 c2 c3
                end
         end
  end.
End Strip.

Fixpoint revAppend (s acc : string) : string :=
  match s with
  | EmptyString => acc
  | String c s' => revAppend s' (String c acc)
  end.

Definition reverse (s : string) : string := revAppend s EmptyString.

(** [String.prototype.trimStart] *)
Definition trimStart (s : string) : string :=
  strip isWhiteSpace1 isWhiteSpace2 isWhiteSpace3 s.

(** [String.prototype.trimEnd]: the same from the other end, on the
    bytes in reverse order. *)
Definition trimEnd (s : string) : string :=
  reverse
    (strip isWhiteSpace1
       (fun c2 c1 => isWhiteSpace2 c1 c2)
       (fun c3 c2 c1 => isWhiteSpace3 c1 c2 c3)
       (reverse s)).

(** [String.prototype.trim] *)
Definition trim (s : string) : string := trimEnd (trimStart s).

(** [`${n}`] for an integer [n] *)
Definition numberToString (n : Z) : string :=
  NilZero.string_of_int (Z.to_int n).

(** [if (x)] on [x : string | undefined]: [undefined] and [''] are falsy;
    the result is the string the guarded branch sees. *)
Definition truthy (o : option string) : option string :=
  match o with
  | Some s => if s =? EmptyString then None else Some s
  | None => None
  end.

(** What a [throw] or an erroring observable carries: an [Error] object
    with its message, or any other value. *)
Inductive Thrown : Type :=
| Error (message : string)
| NonError.

(** [Array.prototype.sort(compareFn)]: a stable sort (ECMAScript 2019);
    for a consistent comparator its result does not depend on the
    algorithm, here insertion from the right. [compareFn a b > 0] puts
    [b] first. *)
Section Sort.
Context {A : Type} (compareFn : A -> A -> Z).

Fixpoint insert (x : A) (l : list A) : list A :=
  match l with
  | [] => [x]
  | y :: l' => if (0 <? compareFn x y)%Z then y :: insert x l' else x :: l
  end.

Fixpoint sort (l : list A) : list A :=
  match l with
  | [] => []
  | x :: l' => insert x (sort l')
  end.
End Sort.

End Js.

(* ================================================================== *)
(** ** Data model *)

(** A [File] handed over by the form. The service never looks inside: it
    passes it to the storage service and to the media element. *)
Record File : Type := mkFile {
  file_name : string;
  file_type : string;
  file_size : Z
}.

(** [TrackRecord] (core/models/database.model): the persisted metadata.
    Dates are their [getTime()], milliseconds since the epoch; the category
    is a string at run time; [duration] is in seconds. *)
Module TrackRecord.
Record t : Type := mk {
  id : string;
  title : string;
  artist : string;
  description : option string;
  category : string;
  duration : Q;
  audioFileId : string;
  coverImageId : option string;
  createdAt : Z;
  updatedAt : Z
}.
End TrackRecord.

(** [Track] (core/models/track.model): the hydrated view. *)
Module Track.
Record t : Type := mk {
  id : string;
  title : string;
  artist : string;
  description : option string;
  category : string;
  duration : Q;
  audioFileId : string;
  coverImageId : option string;
  createdAt : Z;
  updatedAt : Z
}.
End Track.

(** [TrackFormData] *)
Record TrackFormData : Type := mkFormData {
  fd_title : string;
  fd_artist : string;
  fd_description : option string;
  fd_category : string;
  fd_audioFile : File;
  fd_coverImage : option File
}.

(** [Partial<Omit<TrackFormData, 'audioFile'>> & { audioFile?: File }] *)
Record TrackUpdates : Type := mkUpdates {
  up_title : option string;
  up_artist : option string;
  up_description : option string;
  up_category : option string;
  up_audioFile : option File;
  up_coverImage : option File
}.

Inductive TrackOperationState : Type :=
| idle | loading | success | error.

(* ================================================================== *)
(** ** Storage service and single-shot observables *)

(** The calls the track service makes on [StorageService]. *)
Inductive StorageCall : Type :=
| GetAllTracks
| GetTrack (id : string)
| SaveAudioFile (id : string) (file : File)
| SaveCoverImage (id : string) (file : File)
| SaveTrack (record : TrackRecord.t)
| DeleteAudioFile (id : string)
| DeleteTrack (id : string)
| DeleteCoverImage (id : string).

Module Rx.

(** The one notification of a single-shot observable. *)
Inductive Notification (A : Type) : Type :=
| Next (a : A)
| Err (e : Js.Thrown).
Arguments Next {A} a.
Arguments Err {A} e.

(** An observable, once subscribed: the storage calls it issued and its
    notification. *)
Definition Observable (A : Type) : Type :=
  (list StorageCall * Notification A)%type.

(** [of(a)] ([of] is a reserved word) *)
Definition of_ {A} (a : A) : Observable A := ([], Next a).

Definition throwError {A} (e : Js.Thrown) : Observable A := ([], Err e).

Definition switchMap {A B} (project : A -> Observable B)
    (source : Observable A) : Observable B :=
  match source with
  | (cs, Next a) => let (cs', n) := project a in ((cs ++ cs')%list, n)
  | (cs, Err e) => (cs, Err e)
  end.

(** [map] with a callback that returns or throws. *)
Definition map {A B} (project : A -> Notification B)
    (source : Observable A) : Observable B :=
  (fst source,
   match snd source with
   | Next a => project a
   | Err e => Err e
   end).

(** [subscribe()] without observer: the calls are issued, the notification
    is dropped (an error is reported to the host, not to the caller). *)
Definition subscribe {A} (source : Observable A) : list StorageCall :=
  fst source.

(** [tap] whose callback only issues further storage calls. *)
Definition tap {A} (effect : A -> list StorageCall)
    (source : Observable A) : Observable A :=
  match snd source with
  | Next a => ((fst source ++ effect a)%list, Next a)
  | Err e => (fst source, Err e)
  end.

(** [forkJoin] of a non-empty array: every source is subscribed, the
    values are collected when all have emitted, and an error of a source
    is the error of the whole (of the first erroring source in array
    order, when several do). *)
Fixpoint forkJoin {A} (sources : list (Observable A)) : Observable (list A) :=
  match sources with
  | [] => ([], Next [])
  | (cs, n) :: rest =>
      let (cs', ns) := forkJoin rest in
      ((cs ++ cs')%list,
       match n, ns with
       | Err e, _ => Err e
       | Next _, Err e => Err e
       | Next a, Next l => Next (a :: l)
       end)
  end.

End Rx.
Import Rx.

Notation "source '|>' op" := (op source)
  (at level 65, left associativity, only parsing).

(** Answers of the storage service, one per call. A boolean answer is the
    service's own success report. *)
Record StorageAnswers : Type := mkStorage {
  ans_getAllTracks : Notification (list TrackRecord.t);
  ans_getTrack : string -> Notification (option TrackRecord.t);
  ans_saveAudioFile : string -> File -> Notification bool;
  ans_saveCoverImage : string -> File -> Notification bool;
  ans_saveTrack : TrackRecord.t -> Notification bool;
  ans_deleteAudioFile : string -> Notification bool;
  ans_deleteTrack : string -> Notification bool;
  ans_deleteCoverImage : string -> Notification bool
}.

(** Readings of the environment during one operation. *)
Record Ambient : Type := mkAmbient {
  (** the media element on the file: [Some d] is [loadedmetadata] with
      [audio.duration = d], a finite number of seconds, [None] is the
      [error] event *)
  mediaDuration : File -> option Q;
  (** [Math.random().toString(36).substring(2, 9)] *)
  random36 : string;
  (** [Date.now()] in [generateId] *)
  now_id : Z;
  (** [Date.now()] for the new audio id in [updateTrack] *)
  now_audio : Z;
  (** [Date.now()] for the new cover id in [updateTrack] *)
  now_cover : Z;
  (** [new Date()] of the record *)
  now_record : Z
}.

(** The projection held by the service. *)
Record Projection : Type := mkProjection {
  _tracks : list Track.t;
  _state : TrackOperationState;
  _error : option string;
  _selectedTrack : option Track.t
}.

Definition set_tracks (l : list Track.t) (p : Projection) : Projection :=
  mkProjection l (_state p) (_error p) (_selectedTrack p).
Definition set_state (s : TrackOperationState) (p : Projection) : Projection :=
  mkProjection (_tracks p) s (_error p) (_selectedTrack p).
Definition set_error (e : option string) (p : Projection) : Projection :=
  mkProjection (_tracks p) (_state p) e (_selectedTrack p).
Definition set_selectedTrack (t : option Track.t) (p : Projection) : Projection :=
  mkProjection (_tracks p) (_state p) (_error p) t.

(** The service right after construction, before [loadTracks] answers. *)
Definition initial : Projection := mkProjection [] idle None None.

(** What a call leaves behind: the value emitted to the subscriber, the
    storage calls issued, the projection afterwards. *)
Record Run (A : Type) : Type := mkRun {
  emitted : A;
  calls : list StorageCall;
  after : Projection
}.
Arguments mkRun {A}.
Arguments emitted {A}.
Arguments calls {A}.
Arguments after {A}.

(** The tail of every pipeline of the service, [tap(next)] then
    [catchError(handler)], once subscribed: on a value the projection is
    edited and the value emitted, on an error the handler edits the
    projection and supplies the value emitted instead. *)
Definition tapCatch {A B} (pipeline : Observable A)
    (next : A -> B * Projection) (handler : Js.Thrown -> B * Projection)
    : Run B :=
  let outcome :=
    match snd pipeline with
    | Next a => next a
    | Err e => handler e
    end in
  mkRun (fst outcome) (fst pipeline) (snd outcome).

(* ================================================================== *)
(** ** The track service *)

Section TrackService.

Variable storageService : StorageAnswers.
Variable env : Ambient.

(** The storage service's methods, as observables. *)
Definition getAllTracks : Observable (list TrackRecord.t) :=
  ([GetAllTracks], ans_getAllTracks storageService).
Definition getTrack (id : string) : Observable (option TrackRecord.t) :=
  ([GetTrack id], ans_getTrack storageService id).
Definition saveAudioFile (id : string) (file : File) : Observable bool :=
  ([SaveAudioFile id file], ans_saveAudioFile storageService id file).
Definition saveCoverImage (id : string) (file : File) : Observable bool :=
  ([SaveCoverImage id file], ans_saveCoverImage storageService id file).
Definition saveTrack (record : TrackRecord.t) : Observable bool :=
  ([SaveTrack record], ans_saveTrack storageService record).
Definition deleteAudioFile (id : string) : Observable bool :=
  ([DeleteAudioFile id], ans_deleteAudioFile storageService id).
(** [storageService.deleteTrack], renamed: [deleteTrack] is the service's. *)
Definition storage_deleteTrack (id : string) : Observable bool :=
  ([DeleteTrack id], ans_deleteTrack storageService id).
Definition deleteCoverImage (id : string) : Observable bool :=
  ([DeleteCoverImage id], ans_deleteCoverImage storageService id).

(** [mapRecordToTrack] *)
Definition mapRecordToTrack (record : TrackRecord.t) : Track.t :=
  Track.mk
    (TrackRecord.id record)
    (TrackRecord.title record)
    (TrackRecord.artist record)
    (TrackRecord.description record)
    (TrackRecord.category record)
    (TrackRecord.duration record)
    (TrackRecord.audioFileId record)
    (TrackRecord.coverImageId record)
    (TrackRecord.createdAt record)
    (TrackRecord.updatedAt record).

(** [getAudioDuration]: the promise resolves with [audio.duration] on
    [loadedmetadata] and with 0 on [error]; it never rejects. *)
Definition getAudioDuration (file : File) : Observable Q :=
  match mediaDuration env file with
  | Some d => of_ d
  | None => of_ 0%Q
  end.

(** [generateId] *)
Definition generateId : string :=
  "track-" ++ Js.numberToString (now_id env) ++ "-" ++ random36 env.

(** [handleError] *)
Definition handleError (e : Js.Thrown) (p : Projection) : Projection :=
  let p := set_state error p in
  match e with
  | Js.Error message => set_error (Some message) p
  | Js.NonError => set_error (Some "An unknown error occurred") p
  end.

(** [clearError] *)
Definition clearError (p : Projection) : Projection :=
  set_state idle (set_error None p).

(** [selectTrack] *)
Definition selectTrack (track : option Track.t) (p : Projection) : Projection :=
  set_selectedTrack track p.

(** [this._selectedTrack()?.id === id] *)
Definition selectedHasId (p : Projection) (id : string) : bool :=
  match _selectedTrack p with
  | Some t => Track.id t =? id
  | None => false
  end.

(** [loadTracks] *)
Definition compareCreatedAt (a b : Track.t) : Z :=
  Track.createdAt b - Track.createdAt a.

Definition loadTracks (p : Projection) : Run unit :=
  let p := set_state loading p in
  let pipeline :=
    getAllTracks
    |> map (fun records => Next (List.map mapRecordToTrack records))
    |> map (fun tracks => Next (Js.sort compareCreatedAt tracks)) in
  tapCatch pipeline
    (fun tracks => (tt, set_state success (set_tracks tracks p)))
    (fun e => (tt, handleError e p)).

(** [createTrack] *)
Definition createTrack (formData : TrackFormData) (p : Projection)
    : Run (option Track.t) :=
  let p := set_state loading p in
  let id := generateId in
  let audioFileId := "audio-" ++ id in
  let pipeline :=
    saveAudioFile audioFileId (fd_audioFile formData)
    |> switchMap (fun audioSaved : bool =>
         if negb audioSaved
         then throwError (Js.Error "Failed to save audio file")
         else getAudioDuration (fd_audioFile formData))
    |> switchMap (fun duration : Q =>
         match fd_coverImage formData with
         | Some coverImage =>
             let coverImageId := "cover-" ++ id in
             saveCoverImage coverImageId coverImage
             |> map (fun imageSaved : bool =>
                  Next (duration,
                        if imageSaved then Some coverImageId else None))
         | None => of_ (duration, None)
         end)
    |> switchMap (fun '(duration, coverImageId) =>
         let now := now_record env in
         let trackRecord :=
           TrackRecord.mk
             id
             (Js.trim (fd_title formData))
             (Js.trim (fd_artist formData))
             (option_map Js.trim (fd_description formData))
             (fd_category formData)
             duration
             audioFileId
             coverImageId
             now
             now in
         saveTrack trackRecord
         |> map (fun saved : bool =>
              if negb saved
              then Err (Js.Error "Failed to save track")
              else Next (mapRecordToTrack trackRecord))) in
  tapCatch pipeline
    (fun track =>
       (Some track, set_state success (set_tracks (track :: _tracks p) p)))
    (fun e => (None, handleError e p)).

(** [x ?? y] *)
Definition nullish {A} (x : option A) (y : A) : A :=
  match x with Some a => a | None => y end.

(** The old cover is deleted when the record had one. *)
Definition deleteOldCover (existingRecord : TrackRecord.t) : list StorageCall :=
  match Js.truthy (TrackRecord.coverImageId existingRecord) with
  | Some coverImageId => subscribe (deleteCoverImage coverImageId)
  | None => []
  end.

(** [updateTrack] *)
Definition updateTrack (id : string) (updates : TrackUpdates) (p : Projection)
    : Run (option Track.t) :=
  let p := set_state loading p in
  let pipeline :=
    getTrack id
    |> switchMap (fun record =>
         match record with
         | None => throwError (Js.Error "Track not found")
         | Some record => of_ record
         end)
    |> switchMap (fun existingRecord : TrackRecord.t =>
         match up_audioFile updates with
         | Some audioFile =>
             let newAudioFileId :=
               "audio-" ++ id ++ "-" ++ Js.numberToString (now_audio env) in
             saveAudioFile newAudioFileId audioFile
             |> switchMap (fun saved : bool =>
                  if negb saved
                  then throwError (Js.Error "Failed to save new audio file")
                  else getAudioDuration audioFile)
             |> tap (fun _ =>
                  subscribe (deleteAudioFile
                               (TrackRecord.audioFileId existingRecord)))
             |> switchMap (fun duration : Q =>
                  match up_coverImage updates with
                  | Some coverImage =>
                      let newCoverImageId :=
                        "cover-" ++ id ++ "-"
                        ++ Js.numberToString (now_cover env) in
                      saveCoverImage newCoverImageId coverImage
                      |> tap (fun _ => deleteOldCover existingRecord)
                      |> map (fun imageSaved : bool =>
                           Next (newAudioFileId, duration,
                                 if imageSaved then Some newCoverImageId
                                 else TrackRecord.coverImageId existingRecord))
                  | None =>
                      of_ (newAudioFileId, duration,
                           TrackRecord.coverImageId existingRecord)
                  end)
             |> map (fun result => Next (existingRecord, result))
         | None =>
             match up_coverImage updates with
             | Some coverImage =>
                 let newCoverImageId :=
                   "cover-" ++ id ++ "-" ++ Js.numberToString (now_cover env) in
                 saveCoverImage newCoverImageId coverImage
                 |> tap (fun _ => deleteOldCover existingRecord)
                 |> map (fun imageSaved : bool =>
                      Next (existingRecord,
                            (TrackRecord.audioFileId existingRecord,
                             TrackRecord.duration existingRecord,
                             if imageSaved then Some newCoverImageId
                             else TrackRecord.coverImageId existingRecord)))
             | None =>
                 of_ (existingRecord,
                      (TrackRecord.audioFileId existingRecord,
                       TrackRecord.duration existingRecord,
                       TrackRecord.coverImageId existingRecord))
             end
         end)
    |> switchMap (fun '(existingRecord, (audioFileId, duration, coverImageId)) =>
         let updatedRecord :=
           TrackRecord.mk
             (TrackRecord.id existingRecord)
             (nullish (option_map Js.trim (up_title updates))
                      (TrackRecord.title existingRecord))
             (nullish (option_map Js.trim (up_artist updates))
                      (TrackRecord.artist existingRecord))
             (match option_map Js.trim (up_description updates) with
              | Some d => Some d
              | None => TrackRecord.description existingRecord
              end)
             (nullish (up_category updates)
                      (TrackRecord.category existingRecord))
             duration
             audioFileId
             coverImageId
             (TrackRecord.createdAt existingRecord)
             (now_record env) in
         saveTrack updatedRecord
         |> map (fun saved : bool =>
              if negb saved
              then Err (Js.Error "Failed to update track")
              else Next (mapRecordToTrack updatedRecord))) in
  tapCatch pipeline
    (fun track =>
       let p := set_tracks
                  (List.map (fun t => if Track.id t =? id then track else t)
                            (_tracks p)) p in
       let p := if selectedHasId p id
                then set_selectedTrack (Some track) p else p in
       (Some track, set_state success p))
    (fun e => (None, handleError e p)).

(** [deleteTrack] *)
Definition deleteTrack (id : string) (p : Projection) : Run bool :=
  let p := set_state loading p in
  let pipeline :=
    getTrack id
    |> switchMap (fun track =>
         match track with
         | None => throwError (Js.Error "Track not found")
         | Some track =>
             let deleteOperations :=
               [deleteAudioFile (TrackRecord.audioFileId track);
                storage_deleteTrack id] in
             let deleteOperations :=
               match Js.truthy (TrackRecord.coverImageId track) with
               | Some coverImageId =>
                   (deleteOperations ++ [deleteCoverImage coverImageId])%list
               | None => deleteOperations
               end in
             forkJoin deleteOperations
         end)
    |> map (fun _ => Next true) in
  tapCatch pipeline
    (fun done =>
       let p := set_tracks
                  (List.filter (fun t => negb (Track.id t =? id)) (_tracks p))
                  p in
       let p := if selectedHasId p id then set_selectedTrack None p else p in
       (done, set_state success p))
    (fun e => (false, handleError e p)).

(** [getTrackById] *)
Definition getTrackById (id : string) (p : Projection) : option Track.t :=
  List.find (fun t => Track.id t =? id) (_tracks p).

End TrackService.

(* ================================================================== *)
(** ** Vocabulary of the properties *)

(** A storage write or deletion failed: its observable errored, or it
    emitted the report [false]. *)
Definition failed (n : Notification bool) : Prop := n <> Next true.

Definition errored {A} (n : Notification A) : bool :=
  match n with
  | Err _ => true
  | Next _ => false
  end.

(** The deletions [deleteTrack] asks for, for the record found. *)
Definition deletionsOf (id : string) (track : TrackRecord.t) : list StorageCall :=
  DeleteAudioFile (TrackRecord.audioFileId track)
  :: DeleteTrack id
  :: match Js.truthy (TrackRecord.coverImageId track) with
     | Some coverImageId => [DeleteCoverImage coverImageId]
     | None => []
     end.

(** The storage service's answer to a deletion. *)
Definition deletionAnswer (S : StorageAnswers) (c : StorageCall)
    : Notification bool :=
  match c with
  | DeleteAudioFile i => ans_deleteAudioFile S i
  | DeleteTrack i => ans_deleteTrack S i
  | DeleteCoverImage i => ans_deleteCoverImage S i
  | _ => Next true
  end.

(** The storage service with other answers to the deletions of blobs. *)
Definition withBlobDeletions (S : StorageAnswers)
    (audio cover : string -> Notification bool) : StorageAnswers :=
  mkStorage (ans_getAllTracks S) (ans_getTrack S) (ans_saveAudioFile S)
    (ans_saveCoverImage S) (ans_saveTrack S)
    audio (ans_deleteTrack S) cover.

(** Newest first, ties allowed. *)
Definition newestFirstWeak (l : list Track.t) : Prop :=
  StronglySorted (fun a b => Track.createdAt b <= Track.createdAt a) l.

(** Newest first, strictly. *)
Definition newestFirst (l : list Track.t) : Prop :=
  StronglySorted (fun a b => Track.createdAt b < Track.createdAt a) l.

(** Shapes of identifiers. *)
Fixpoint noDash (s : string) : bool :=
  match s with
  | EmptyString => true
  | String c s' => negb (Ascii.eqb c "-") && noDash s'
  end.

(** An id that [generateId] can return: the clock is not before the epoch
    and the base-36 digits contain no dash. *)
Definition generated (id : string) : Prop :=
  exists now rnd,
    0 <= now /\ noDash rnd = true /\
    id = "track-" ++ Js.numberToString now ++ "-" ++ rnd.

(** A blob id built by the service for the track [id]: [kind ++ id] in
    [createTrack], [kind ++ id ++ "-" ++ Date.now()] in [updateTrack]. *)
Definition scoped (kind id blobId : string) : Prop :=
  blobId = kind ++ id \/
  exists now, 0 <= now /\ blobId = kind ++ id ++ "-" ++ Js.numberToString now.

(** [cover-<trackId>-<timestamp>] *)
Definition coverWithTimestamp (id blobId : string) : Prop :=
  exists now : Z, blobId = "cover-" ++ id ++ "-" ++ Js.numberToString now.

(* ================================================================== *)
(** ** Sample inputs *)

Module Sample.

Definition song : File := mkFile "song.mp3" "audio/mpeg" 4096.
Definition picture : File := mkFile "front.png" "image/png" 512.

(** A three-second audio, ids from clock 1000 and digits abc1234. *)
Definition env : Ambient :=
  mkAmbient (fun _ => Some 3%Q) "abc1234" 1000 2000 3000 1001.

(** A later moment: ids from clock 4999, the record dated 5000. *)
Definition envLater : Ambient :=
  mkAmbient (fun _ => Some 3%Q) "xyz9876" 4999 4000 4500 5000.

(** The same, with audio that the media element cannot decode. *)
Definition envUndecodable : Ambient :=
  mkAmbient (fun _ => None) "abc1234" 1000 2000 3000 1001.

Definition form : TrackFormData :=
  mkFormData " Song " "Band" None "rock" song None.
Definition formWithCover : TrackFormData :=
  mkFormData " Song " "Band" None "rock" song (Some picture).

Definition coverOnly : TrackUpdates :=
  mkUpdates None None None None None (Some picture).
Definition newAudio : TrackUpdates :=
  mkUpdates None None None None (Some song) None.

Definition id : string := "track-1000-abc1234".

(** The stored record of the track, with a cover. *)
Definition record : TrackRecord.t :=
  TrackRecord.mk id "Song" "Band" None "rock" 3%Q
    ("audio-" ++ id) (Some ("cover-" ++ id)) 1001 1001.

Definition track : Track.t := mapRecordToTrack record.

Definition older : Track.t :=
  Track.mk "track-900-zzz" "Old" "Band" None "jazz" 1%Q
    "audio-track-900-zzz" None 901 901.

Definition lookup (i : string) : Notification (option TrackRecord.t) :=
  if i =? id then Next (Some record) else Next None.

(** Every storage operation succeeds. *)
Definition storage : StorageAnswers :=
  mkStorage (Next [record]) lookup
    (fun _ _ => Next true) (fun _ _ => Next true) (fun _ => Next true)
    (fun _ => Next true) (fun _ => Next true) (fun _ => Next true).

(** The deletion of the audio blob reports [false]. *)
Definition storageAudioDeletionFalse : StorageAnswers :=
  mkStorage (Next [record]) lookup
    (fun _ _ => Next true) (fun _ _ => Next true) (fun _ => Next true)
    (fun _ => Next false) (fun _ => Next true) (fun _ => Next true).

(** The deletion of the cover blob errors. *)
Definition storageCoverDeletionError : StorageAnswers :=
  mkStorage (Next [record]) lookup
    (fun _ _ => Next true) (fun _ _ => Next true) (fun _ => Next true)
    (fun _ => Next true) (fun _ => Next true)
    (fun _ => Err (Js.Error "blocked")).

(** The cover write reports [false]. *)
Definition storageCoverWriteFalse : StorageAnswers :=
  mkStorage (Next [record]) lookup
    (fun _ _ => Next true) (fun _ _ => Next false) (fun _ => Next true)
    (fun _ => Next true) (fun _ => Next true) (fun _ => Next true).

(** The cover write errors. *)
Definition storageCoverWriteError : StorageAnswers :=
  mkStorage (Next [record]) lookup
    (fun _ _ => Next true) (fun _ _ => Err (Js.Error "quota"))
    (fun _ => Next true)
    (fun _ => Next true) (fun _ => Next true) (fun _ => Next true).

(** The audio write reports [false]. *)
Definition storageAudioWriteFalse : StorageAnswers :=
  mkStorage (Next [record]) lookup
    (fun _ _ => Next false) (fun _ _ => Next true) (fun _ => Next true)
    (fun _ => Next true) (fun _ => Next true) (fun _ => Next true).

(** The write of the record reports [false]. *)
Definition storageRecordWriteFalse : StorageAnswers :=
  mkStorage (Next [record]) lookup
    (fun _ _ => Next true) (fun _ _ => Next true) (fun _ => Next false)
    (fun _ => Next true) (fun _ => Next true) (fun _ => Next true).

(** The stored record of the older track, and a storage that lists it
    before the newer one. *)
Definition olderRecord : TrackRecord.t :=
  TrackRecord.mk "track-900-zzz" "Old" "Band" None "jazz" 1%Q
    "audio-track-900-zzz" None 901 901.

Definition storageTwo : StorageAnswers :=
  mkStorage (Next [olderRecord; record]) lookup
    (fun _ _ => Next true) (fun _ _ => Next true) (fun _ => Next true)
    (fun _ => Next true) (fun _ => Next true) (fun _ => Next true).

(** U+00A0 and U+2003, encoded. *)
Definition nbsp : string :=
  String (ascii_of_nat 194) (String (ascii_of_nat 160) EmptyString).
Definition emSpace : string :=
  String (ascii_of_nat 226)
    (String (ascii_of_nat 128) (String (ascii_of_nat 131) EmptyString)).

(** A form whose title has a no-break space before and an em space
    after. *)
Definition formSpaced : TrackFormData :=
  mkFormData (nbsp ++ "Song" ++ emSpace) " Band " None "rock" song None.

(** A projection listing the track and an older one, the track selected. *)
Definition projection : Projection :=
  mkProjection [track; older] success None (Some track).

End Sample.

(* ================================================================== *)
(** ** The rest of the track service *)

(** [trackCount], [isLoading], [hasError] *)
Definition trackCount (p : Projection) : nat := List.length (_tracks p).

Definition isLoading (p : Projection) : bool :=
  match _state p with
  | loading => true
  | _ => false
  end.

Definition hasError (p : Projection) : bool :=
  match _state p with
  | error => true
  | _ => false
  end.

(** [getTrackById$]: the lookup in the storage, hydrated; no [catchError]
    here, an error of the storage is the error of the stream. *)
Definition getTrackById_ (S : StorageAnswers) (id : string)
    : Observable (option Track.t) :=
  getTrack S id
  |> map (fun record => Next (option_map mapRecordToTrack record)).

(** The constructor: the projection starts empty and [loadTracks] runs. *)
Definition construct (S : StorageAnswers) : Run unit :=
  loadTracks S initial.

(** The message [handleError] records for a thrown value. *)
Definition messageOf (e : Js.Thrown) : string :=
  match e with
  | Js.Error message => message
  | Js.NonError => "An unknown error occurred"
  end.

(** A string that begins, or ends, with a white space code point, or
    holds nothing else. *)
Definition startsWithWhiteSpace (s : string) : bool :=
  Js.starts Js.isWhiteSpace1 Js.isWhiteSpace2 Js.isWhiteSpace3 s.

Definition endsWithWhiteSpace (s : string) : bool :=
  Js.starts Js.isWhiteSpace1
    (fun c2 c1 => Js.isWhiteSpace2 c1 c2)
    (fun c3 c2 c1 => Js.isWhiteSpace3 c1 c2 c3)
    (Js.reverse s).

Definition allWhiteSpace (s : string) : bool :=
  match Js.trimStart s with
  | EmptyString => true
  | String _ _ => false
  end.

(** The storage calls by kind. *)
Definition isSave (c : StorageCall) : bool :=
  match c with
  | SaveAudioFile _ _ | SaveCoverImage _ _ | SaveTrack _ => true
  | _ => false
  end.

Definition isBlobDeletion (c : StorageCall) : bool :=
  match c with
  | DeleteAudioFile _ | DeleteCoverImage _ => true
  | _ => false
  end.

(* ================================================================== *)
(** ** The file store

    The class [Storage] (storage service over IndexedDB, database
    [mosiqa-db], object store [audio-files] with key path [id]). The
    object store is a keyed collection: [put] replaces the record of the
    same key, [get] and [delete] go by key. Every awaited request either
    succeeds or rejects; a rejected request leaves the store as it was. *)

Module Storage.

(** [AudioRecord] (core/models/database.model) *)
Record AudioRecord : Type := mkAudioRecord {
  id : string;
  name : string;
  size : Z;
  mimeType : string;
  blob : File;
  createdAt : Z
}.

(** What a rejected promise carries: an [Error] (a [DOMException] is one)
    with its name and message, or another value. *)
Inductive Rejection : Type :=
| DomError (errorName message : string)
| NotAnError.

(** A settled promise. *)
Inductive Settled (A : Type) : Type :=
| Resolved (a : A)
| Rejected (e : Rejection).
Arguments Resolved {A} a.
Arguments Rejected {A} e.

(** The object store [audio-files]. *)
Definition ObjectStore : Type := list AudioRecord.

Definition idbGet (key : string) (store : ObjectStore) : option AudioRecord :=
  List.find (fun r => id r =? key) store.

Definition idbDelete (key : string) (store : ObjectStore) : ObjectStore :=
  List.filter (fun r => negb (id r =? key)) store.

Definition idbPut (record : AudioRecord) (store : ObjectStore) : ObjectStore :=
  record :: idbDelete (id record) store.

(** Lines written to the console. *)
Inductive ConsoleLine : Type :=
| ConsoleLog (text : string)
| ConsoleError (label message : string)
| ConsoleErrorValue (label : string).

(** What an [async] method leaves behind: the value its promise resolves
    with, the console lines, the database. *)
Record Outcome (A : Type) : Type := mkOutcome {
  returned : A;
  console : list ConsoleLine;
  dbAfter : Settled ObjectStore
}.
Arguments mkOutcome {A}.
Arguments returned {A}.
Arguments console {A}.
Arguments dbAfter {A}.

(** [handleError] *)
Definition handleError (err : Rejection) : list ConsoleLine :=
  match err with
  | DomError errorName message =>
      if errorName =? "QuotaExceededError"
      then [ConsoleError "Storage quota exceeded:" message]
      else if errorName =? "InvalidStateError"
      then [ConsoleError "Invalid state error:" message]
      else [ConsoleError "Storage error:" message]
  | NotAnError => [ConsoleErrorValue "Unknown error:"]
  end.

(** [saveFile]; [now] is [new Date()], [fault] the rejection of
    [db.put], if any. *)
Definition saveFile (now : Z) (fault : option Rejection)
    (fileId : string) (file : File) (dbPromise : Settled ObjectStore)
    : Outcome bool :=
  match dbPromise with
  | Rejected err => mkOutcome false (handleError err) dbPromise
  | Resolved db =>
      let record :=
        mkAudioRecord fileId (file_name file) (file_size file)
          (file_type file) file now in
      match fault with
      | Some err => mkOutcome false (handleError err) dbPromise
      | None =>
          mkOutcome true
            [ConsoleLog ("File " ++ file_name file ++ " saved successfully.")]
            (Resolved (idbPut record db))
      end
  end.

(** [getFile]; [fault] is the rejection of [db.get], if any. *)
Definition getFile (fault : option Rejection) (fileId : string)
    (dbPromise : Settled ObjectStore) : Outcome (option AudioRecord) :=
  match dbPromise with
  | Rejected err => mkOutcome None (handleError err) dbPromise
  | Resolved db =>
      match fault with
      | Some err => mkOutcome None (handleError err) dbPromise
      | None =>
          match idbGet fileId db with
          | Some record =>
              mkOutcome (Some record)
                [ConsoleLog
                   ("File " ++ name record ++ " retrieved successfully.")]
                dbPromise
          | None =>
              mkOutcome None
                [ConsoleLog ("File with id " ++ fileId ++ " not found.")]
                dbPromise
          end
      end
  end.

(** [deleteFile]; [fault] is the rejection of [db.delete], if any. *)
Definition deleteFile (fault : option Rejection) (fileId : string)
    (dbPromise : Settled ObjectStore) : Outcome bool :=
  match dbPromise with
  | Rejected err => mkOutcome false (handleError err) dbPromise
  | Resolved db =>
      match fault with
      | Some err => mkOutcome false (handleError err) dbPromise
      | None =>
          mkOutcome true
            [ConsoleLog
               ("File with id " ++ fileId ++ " deleted successfully.")]
            (Resolved (idbDelete fileId db))
      end
  end.

(** The rejection an [async] method met, if any. *)
Definition rejection (fault : option Rejection)
    (dbPromise : Settled ObjectStore) : option Rejection :=
  match dbPromise with
  | Rejected err => Some err
  | Resolved _ => fault
  end.

(** A rejection for lack of space. *)
Definition quota : Rejection := DomError "QuotaExceededError" "disk full".

End Storage.

(* ================================================================== *)
(** ** Proof support *)

Ltac unfold_rx :=
  cbv beta delta [tapCatch switchMap Rx.map tap of_ throwError subscribe
    getTrack getAllTracks saveAudioFile saveCoverImage saveTrack
    deleteAudioFile storage_deleteTrack deleteCoverImage getAudioDuration
    deleteOldCover] in *.

Ltac break_inner x :=
  lazymatch x with
  | context [match ?y with _ => _ end] => break_inner y
  | _ => destruct x eqn:?
  end.

(** One case split on the innermost scrutinee of the goal or of a
    hypothesis. *)
Ltac break_match :=
  match goal with
  | |- context [match ?x with _ => _ end] => break_inner x
  | H : context [match ?x with _ => _ end] |- _ => break_inner x
  end.

Ltac cases := cbn in *; repeat (break_match; cbn in * ).

Lemma handleError_spec e p :
  _tracks (handleError e p) = _tracks p /\
  _state (handleError e p) = error /\
  _selectedTrack (handleError e p) = _selectedTrack p /\
  exists message, _error (handleError e p) = Some message.
Proof.
  destruct e; cbn; repeat split; eauto.
Qed.

(** [forkJoin] issues the calls of all its sources. *)
Lemma forkJoin_calls {A} (sources : list (Observable A)) :
  fst (forkJoin sources) = List.concat (List.map fst sources).
Proof.
  induction sources as [|[cs n] rest IH]; cbn; [reflexivity|].
  destruct (forkJoin rest) as [cs' ns]; cbn in *. now rewrite IH.
Qed.

(** [forkJoin] errors exactly when one of its sources does. *)
Lemma forkJoin_errored {A} (sources : list (Observable A)) :
  errored (snd (forkJoin sources)) = existsb (fun o => errored (snd o)) sources.
Proof.
  induction sources as [|[cs n] rest IH]; cbn; [reflexivity|].
  destruct (forkJoin rest) as [cs' ns]; cbn in *.
  rewrite <- IH. destruct n, ns; reflexivity.
Qed.

(* ================================================================== *)
(** ** Failure of an operation (C10) *)

Lemma createTrack_failure S env formData p :
  emitted (createTrack S env formData p) = None ->
  exists e, after (createTrack S env formData p)
            = handleError e (set_state loading p).
Proof.
  unfold createTrack. unfold_rx. cases; intros; try discriminate; eauto;
  now eexists (Js.Error _).
Qed.

Lemma updateTrack_failure S env id updates p :
  emitted (updateTrack S env id updates p) = None ->
  exists e, after (updateTrack S env id updates p)
            = handleError e (set_state loading p).
Proof.
  unfold updateTrack. unfold_rx. cases; intros; try discriminate; eauto;
  now eexists (Js.Error _).
Qed.

Lemma deleteTrack_failure S id p :
  emitted (deleteTrack S id p) = false ->
  exists e, after (deleteTrack S id p) = handleError e (set_state loading p).
Proof.
  unfold deleteTrack. unfold_rx.
  destruct (ans_getTrack S id) as [[track|]|e]; cbn; eauto.
  - destruct (forkJoin _) as [cs [l|e]]; cbn; eauto; discriminate.
  - now eexists (Js.Error _).
Qed.

(** C10. When [createTrack], [updateTrack] or [deleteTrack] fails, the
    subscriber still receives a value, [null] (here [None]) or [false],
    the list of the projection is the one before the call, and the
    projection is in the [error] state with a message. *)
Theorem failure_keeps_list S env p :
  (forall formData,
     emitted (createTrack S env formData p) = None ->
     _tracks (after (createTrack S env formData p)) = _tracks p /\
     _state (after (createTrack S env formData p)) = error /\
     exists message,
       _error (after (createTrack S env formData p)) = Some message)
  /\
  (forall id updates,
     emitted (updateTrack S env id updates p) = None ->
     _tracks (after (updateTrack S env id updates p)) = _tracks p /\
     _state (after (updateTrack S env id updates p)) = error /\
     exists message,
       _error (after (updateTrack S env id updates p)) = Some message)
  /\
  (forall id,
     emitted (deleteTrack S id p) = false ->
     _tracks (after (deleteTrack S id p)) = _tracks p /\
     _state (after (deleteTrack S id p)) = error /\
     exists message, _error (after (deleteTrack S id p)) = Some message).
Proof.
  split; [|split]; intros.
  - destruct (createTrack_failure _ _ _ _ H) as [e ->].
    destruct (handleError_spec e (set_state loading p)) as (? & ? & ? & ?); auto.
  - destruct (updateTrack_failure _ _ _ _ _ H) as [e ->].
    destruct (handleError_spec e (set_state loading p)) as (? & ? & ? & ?); auto.
  - destruct (deleteTrack_failure _ _ _ H) as [e ->].
    destruct (handleError_spec e (set_state loading p)) as (? & ? & ? & ?); auto.
Qed.

Lemma failure_keeps_list_witness :
  _tracks (after (createTrack Sample.storageRecordWriteFalse Sample.envLater
                    Sample.formWithCover Sample.projection))
  = [Sample.track; Sample.older] /\
  _tracks (after (updateTrack Sample.storageRecordWriteFalse Sample.envLater
                    Sample.id Sample.newAudio Sample.projection))
  = [Sample.track; Sample.older] /\
  _tracks (after (deleteTrack Sample.storageCoverDeletionError Sample.id
                    Sample.projection))
  = [Sample.track; Sample.older].
Proof.
  destruct (failure_keeps_list Sample.storageRecordWriteFalse Sample.envLater
              Sample.projection) as (Hc & Hu & _).
  destruct (failure_keeps_list Sample.storageCoverDeletionError Sample.envLater
              Sample.projection) as (_ & _ & Hd).
  split; [|split].
  - apply (Hc Sample.formWithCover). reflexivity.
  - apply (Hu Sample.id Sample.newAudio). reflexivity.
  - apply (Hd Sample.id). reflexivity.
Defined.

(* ================================================================== *)
(** ** deleteTrack: the fan-out of deletions (C1) and the selection (C9) *)

Lemma deleteTrack_found S id p track :
  ans_getTrack S id = Next (Some track) ->
  calls (deleteTrack S id p) = GetTrack id :: deletionsOf id track /\
  (emitted (deleteTrack S id p) = false <->
   exists c, In c (deletionsOf id track) /\ errored (deletionAnswer S c) = true).
Proof.
  intros H. unfold deleteTrack, deletionsOf. unfold_rx. rewrite H.
  destruct (Js.truthy (TrackRecord.coverImageId track)) as [c|]; cbn.
  - destruct (ans_deleteAudioFile S (TrackRecord.audioFileId track)) eqn:Ea;
      destruct (ans_deleteTrack S id) eqn:Et;
      destruct (ans_deleteCoverImage S c) eqn:Ec; cbn.
    all: split; [reflexivity|split].
    all: try discriminate.
    all: try (intros (x & [<-|[<-|[<-|[]]]] & Hx); cbn in Hx;
              rewrite ?Ea, ?Et, ?Ec in Hx; cbn in Hx; congruence).
    all: intros _.
    all: first
      [ exists (DeleteAudioFile (TrackRecord.audioFileId track));
        split; [cbn; tauto | cbn; rewrite Ea; reflexivity]
      | exists (DeleteTrack id);
        split; [cbn; tauto | cbn; rewrite Et; reflexivity]
      | exists (DeleteCoverImage c);
        split; [cbn; tauto | cbn; rewrite Ec; reflexivity] ].
  - destruct (ans_deleteAudioFile S (TrackRecord.audioFileId track)) eqn:Ea;
      destruct (ans_deleteTrack S id) eqn:Et; cbn.
    all: split; [reflexivity|split].
    all: try discriminate.
    all: try (intros (x & [<-|[<-|[]]] & Hx); cbn in Hx;
              rewrite ?Ea, ?Et in Hx; cbn in Hx; congruence).
    all: intros _.
    all: first
      [ exists (DeleteAudioFile (TrackRecord.audioFileId track));
        split; [cbn; tauto | cbn; rewrite Ea; reflexivity]
      | exists (DeleteTrack id);
        split; [cbn; tauto | cbn; rewrite Et; reflexivity] ].
Qed.

Lemma deleteTrack_success S id p :
  emitted (deleteTrack S id p) = true ->
  after (deleteTrack S id p)
  = set_state success
      (let q := set_tracks
                  (List.filter (fun t => negb (Track.id t =? id)) (_tracks p))
                  (set_state loading p) in
       if selectedHasId q id then set_selectedTrack None q else q).
Proof.
  unfold deleteTrack. unfold_rx.
  destruct (ans_getTrack S id) as [[track|]|e]; cbn; try discriminate.
  destruct (forkJoin _) as [cs [l|e]]; cbn; try discriminate. reflexivity.
Qed.

(** Once the record is found, [deleteTrack] asks for the deletion of the
    audio blob, of the record and, when the record has a cover id, of the
    cover blob, all of them whatever the others answer; it fails (emits
    [false], [error] state, list untouched) exactly when one of these
    deletions errors. A deletion that completes with the report [false]
    does not make it fail: when every deletion completes, it emits [true]
    and removes the track from the list. *)
Lemma deleteTrack_fan_out S id p track :
  ans_getTrack S id = Next (Some track) ->
  calls (deleteTrack S id p) = GetTrack id :: deletionsOf id track /\
  (emitted (deleteTrack S id p) = false <->
   exists c, In c (deletionsOf id track) /\ errored (deletionAnswer S c) = true) /\
  (emitted (deleteTrack S id p) = false ->
   _state (after (deleteTrack S id p)) = error /\
   _tracks (after (deleteTrack S id p)) = _tracks p) /\
  ((forall c, In c (deletionsOf id track) ->
      exists report, deletionAnswer S c = Next report) ->
   emitted (deleteTrack S id p) = true /\
   _state (after (deleteTrack S id p)) = success /\
   _tracks (after (deleteTrack S id p))
   = List.filter (fun t => negb (Track.id t =? id)) (_tracks p)).
Proof.
  intros H. destruct (deleteTrack_found S id p track H) as [Hc Hf].
  split; [exact Hc|]. split; [exact Hf|]. split.
  - intros E. destruct (deleteTrack_failure _ _ _ E) as [e ->].
    destruct (handleError_spec e (set_state loading p)) as (? & ? & _); auto.
  - intros Hall.
    assert (emitted (deleteTrack S id p) = true) as E.
    { destruct (emitted (deleteTrack S id p)) eqn:E; [reflexivity|].
      destruct (proj1 Hf eq_refl) as (c & Hin & He).
      destruct (Hall c Hin) as [b Hb]. rewrite Hb in He. discriminate. }
    split; [exact E|]. rewrite (deleteTrack_success _ _ _ E). cbn.
    destruct (selectedHasId _ id); split; reflexivity.
Qed.

(** An erroring deletion of the cover blob makes [deleteTrack] fail. *)
Lemma deleteTrack_fan_out_error :
  calls (deleteTrack Sample.storageCoverDeletionError Sample.id Sample.projection)
  = [GetTrack Sample.id;
     DeleteAudioFile "audio-track-1000-abc1234";
     DeleteTrack Sample.id;
     DeleteCoverImage "cover-track-1000-abc1234"] /\
  emitted (deleteTrack Sample.storageCoverDeletionError Sample.id
             Sample.projection) = false.
Proof.
  destruct (deleteTrack_fan_out Sample.storageCoverDeletionError Sample.id
              Sample.projection Sample.record eq_refl) as (Hc & Hf & _).
  split.
  - exact Hc.
  - apply Hf. exists (DeleteCoverImage "cover-track-1000-abc1234").
    split; [cbn; tauto | reflexivity].
Qed.

(** C1. The code at the failing input: the record is found and the
    storage reports [false] for the deletion of the audio blob. The three
    deletions are asked for, and [deleteTrack] emits [true]: it is in the
    [success] state, without error message, and the track has left the
    list, although one of its deletions failed. *)
Theorem deleteTrack_succeeds_on_false_report :
  deletionAnswer Sample.storageAudioDeletionFalse
    (DeleteAudioFile "audio-track-1000-abc1234") = Next false /\
  calls (deleteTrack Sample.storageAudioDeletionFalse Sample.id
           Sample.projection)
  = [GetTrack "track-1000-abc1234";
     DeleteAudioFile "audio-track-1000-abc1234";
     DeleteTrack "track-1000-abc1234";
     DeleteCoverImage "cover-track-1000-abc1234"] /\
  emitted (deleteTrack Sample.storageAudioDeletionFalse Sample.id
             Sample.projection) = true /\
  _state (after (deleteTrack Sample.storageAudioDeletionFalse Sample.id
                   Sample.projection)) = success /\
  _error (after (deleteTrack Sample.storageAudioDeletionFalse Sample.id
                   Sample.projection)) = None /\
  _tracks (after (deleteTrack Sample.storageAudioDeletionFalse Sample.id
                    Sample.projection)) = [Sample.older].
Proof.
  split; [reflexivity|].
  destruct (deleteTrack_fan_out Sample.storageAudioDeletionFalse Sample.id
              Sample.projection Sample.record eq_refl)
    as (Hcalls & _ & _ & Hdone).
  split; [exact Hcalls|].
  destruct Hdone as (He & Hs & Ht).
  - intros c [<-|[<-|[<-|[]]]]; eexists; reflexivity.
  - split; [exact He|]. split; [exact Hs|]. split; [reflexivity|].
    rewrite Ht. reflexivity.
Qed.

(** C9. [selectTrack] only sets the cursor. When [deleteTrack] succeeds
    on the id of the selected track the selection becomes absent; when the
    selected track has another id, or nothing is selected, the selection is
    left as it was. *)
Theorem deleteTrack_selection S id p :
  (forall track q,
     _selectedTrack (selectTrack track q) = track /\
     _tracks (selectTrack track q) = _tracks q /\
     _state (selectTrack track q) = _state q /\
     _error (selectTrack track q) = _error q) /\
  (emitted (deleteTrack S id p) = true ->
   (forall t, _selectedTrack p = Some t -> Track.id t = id ->
      _selectedTrack (after (deleteTrack S id p)) = None) /\
   ((forall t, _selectedTrack p = Some t -> Track.id t <> id) ->
      _selectedTrack (after (deleteTrack S id p)) = _selectedTrack p)).
Proof.
  split; [intros; cbn; auto|].
  intros E. rewrite (deleteTrack_success _ _ _ E).
  unfold selectedHasId. cbn. split.
  - intros t Ht Hid. rewrite Ht. rewrite Hid, String.eqb_refl. reflexivity.
  - intros Hother. destruct (_selectedTrack p) as [t|] eqn:Ht; cbn; auto.
    destruct (String.eqb_spec (Track.id t) id) as [Heq|Hne]; cbn; auto.
    now elim (Hother t eq_refl).
Qed.

Lemma deleteTrack_selection_witness :
  _selectedTrack
    (after (deleteTrack Sample.storage Sample.id
              (selectTrack (Some Sample.track) Sample.projection))) = None.
Proof.
  apply (proj1 (proj2 (deleteTrack_selection Sample.storage Sample.id
                         (selectTrack (Some Sample.track) Sample.projection))
                  eq_refl) Sample.track); reflexivity.
Defined.

(* ================================================================== *)
(** ** createTrack: mandatory and secondary writes (C3, C4), duration (C8) *)

(** What a successful creation looks like. *)
Lemma createTrack_success S env formData p track :
  emitted (createTrack S env formData p) = Some track ->
  ans_saveAudioFile S ("audio-" ++ generateId env) (fd_audioFile formData)
  = Next true /\
  Track.id track = generateId env /\
  Track.audioFileId track = "audio-" ++ generateId env /\
  (Track.coverImageId track = None \/
   Track.coverImageId track = Some ("cover-" ++ generateId env)) /\
  Track.duration track
  = match mediaDuration env (fd_audioFile formData) with
    | Some d => d
    | None => 0%Q
    end /\
  Track.createdAt track = now_record env /\
  Track.updatedAt track = now_record env /\
  after (createTrack S env formData p)
  = set_state success
      (set_tracks (track :: _tracks p) (set_state loading p)).
Proof.
  unfold createTrack. unfold_rx.
  destruct (ans_saveAudioFile S _ _) as [[|]|e]; cbn.
  2: discriminate.
  2: destruct e; discriminate.
  destruct (mediaDuration env (fd_audioFile formData)) as [d|];
    destruct (fd_coverImage formData) as [cover|]; cbn.
  all: try (destruct (ans_saveCoverImage S _ cover) as [[|]|e]; cbn).
  all: try (destruct e; discriminate).
  all: destruct (ans_saveTrack S _) as [[|]|e]; cbn.
  all: try discriminate.
  all: try (destruct e; discriminate).
  all: intros [= <-]; cbn; repeat split; auto.
Qed.

(** C3. [createTrack] fails as a whole when one of its two mandatory
    writes fails (errors or reports [false]). When the audio write fails,
    nothing else is asked of the storage: no record is written. When the
    write of the record fails, the creation fails although the audio write
    had succeeded and the cover write, if any, had been made. *)
Theorem createTrack_mandatory_writes S env formData p :
  (failed (ans_saveAudioFile S ("audio-" ++ generateId env)
             (fd_audioFile formData)) ->
   emitted (createTrack S env formData p) = None /\
   _state (after (createTrack S env formData p)) = error /\
   calls (createTrack S env formData p)
   = [SaveAudioFile ("audio-" ++ generateId env) (fd_audioFile formData)])
  /\
  (forall record,
     In (SaveTrack record) (calls (createTrack S env formData p)) ->
     failed (ans_saveTrack S record) ->
     emitted (createTrack S env formData p) = None /\
     _state (after (createTrack S env formData p)) = error /\
     ans_saveAudioFile S ("audio-" ++ generateId env) (fd_audioFile formData)
     = Next true /\
     exists covers,
       calls (createTrack S env formData p)
       = (SaveAudioFile ("audio-" ++ generateId env) (fd_audioFile formData)
          :: covers ++ [SaveTrack record])%list /\
       (covers = [] \/
        exists cover, fd_coverImage formData = Some cover /\
          covers = [SaveCoverImage ("cover-" ++ generateId env) cover])).
Proof.
  unfold failed. split.
  - intros Hfail. unfold createTrack. unfold_rx.
    destruct (ans_saveAudioFile S _ _) as [[|]|e]; cbn.
    + now elim Hfail.
    + auto.
    + destruct e; auto.
  - intros record. unfold createTrack. unfold_rx.
    destruct (ans_saveAudioFile S _ _) as [[|]|e] eqn:Ea; cbn.
    2: intros [[=]|[]].
    2: destruct e; cbn; intros [[=]|[]].
    destruct (mediaDuration env (fd_audioFile formData)) as [d|];
      destruct (fd_coverImage formData) as [cover|]; cbn.
    all: try (destruct (ans_saveCoverImage S _ cover) as [b|e] eqn:Ec; cbn).
    all: try (destruct e; cbn; intros [[=]|[[=]|[]]]).
    all: intros Hin;
      repeat (destruct Hin as [Hin|Hin]; try discriminate; try contradiction);
      injection Hin as Hin; subst record.
    all: intros Hfail;
      destruct (ans_saveTrack S _) as [[|]|e'] eqn:Et; cbn;
      [ now elim Hfail | | destruct e' ].
    all: repeat split; auto.
    all: first [ now exists []; split; [reflexivity|left]
               | eexists [_]; split; [reflexivity|right; eauto] ].
Qed.

Lemma createTrack_mandatory_writes_witness :
  (emitted (createTrack Sample.storageAudioWriteFalse Sample.env
              Sample.formWithCover Sample.projection) = None /\
   calls (createTrack Sample.storageAudioWriteFalse Sample.env
            Sample.formWithCover Sample.projection)
   = [SaveAudioFile "audio-track-1000-abc1234" Sample.song]) /\
  (emitted (createTrack Sample.storageRecordWriteFalse Sample.envLater
              Sample.formWithCover Sample.projection) = None /\
   _state (after (createTrack Sample.storageRecordWriteFalse Sample.envLater
                    Sample.formWithCover Sample.projection)) = error).
Proof.
  split.
  - destruct (proj1 (createTrack_mandatory_writes
                       Sample.storageAudioWriteFalse Sample.env
                       Sample.formWithCover Sample.projection))
      as (He & _ & Hc).
    + unfold failed. simpl. discriminate.
    + exact (conj He Hc).
  - destruct (proj2 (createTrack_mandatory_writes
                       Sample.storageRecordWriteFalse Sample.envLater
                       Sample.formWithCover Sample.projection)
                (TrackRecord.mk "track-4999-xyz9876" "Song" "Band" None "rock"
                   3%Q "audio-track-4999-xyz9876"
                   (Some "cover-track-4999-xyz9876") 5000 5000))
      as (He & Hs & _).
    + simpl. tauto.
    + unfold failed. simpl. discriminate.
    + exact (conj He Hs).
Defined.

(** C4, as stated, fails: a cover write that errors aborts the creation,
    although the audio and the record can be written. *)
Lemma createTrack_cover_error_aborts :
  ~ (forall S env formData p cover,
       fd_coverImage formData = Some cover ->
       ans_saveAudioFile S ("audio-" ++ generateId env) (fd_audioFile formData)
       = Next true ->
       (forall record, ans_saveTrack S record = Next true) ->
       failed (ans_saveCoverImage S ("cover-" ++ generateId env) cover) ->
       exists track,
         emitted (createTrack S env formData p) = Some track /\
         Track.coverImageId track = None).
Proof.
  intros claim.
  destruct (claim Sample.storageCoverWriteError Sample.env
              Sample.formWithCover initial Sample.picture
              eq_refl eq_refl (fun _ => eq_refl))
    as (track & E & _).
  - unfold failed. simpl. discriminate.
  - discriminate E.
Qed.

(** C4 (amended). With a cover supplied, the audio written and the record
    write succeeding: when the cover write completes with the report
    [false], the creation succeeds, the track has no cover id and is put in
    front of the list; when the cover write errors, the creation fails with
    that error and no record is written. *)
Theorem createTrack_cover_write S env formData p cover :
  fd_coverImage formData = Some cover ->
  ans_saveAudioFile S ("audio-" ++ generateId env) (fd_audioFile formData)
  = Next true ->
  (forall record,
     In (SaveTrack record) (calls (createTrack S env formData p)) ->
     ans_saveTrack S record = Next true) ->
  (ans_saveCoverImage S ("cover-" ++ generateId env) cover = Next false ->
   exists track,
     emitted (createTrack S env formData p) = Some track /\
     Track.coverImageId track = None /\
     _tracks (after (createTrack S env formData p)) = track :: _tracks p /\
     _state (after (createTrack S env formData p)) = success)
  /\
  (forall e,
     ans_saveCoverImage S ("cover-" ++ generateId env) cover = Err e ->
     emitted (createTrack S env formData p) = None /\
     after (createTrack S env formData p)
     = handleError e (set_state loading p) /\
     forall record,
       ~ In (SaveTrack record) (calls (createTrack S env formData p))).
Proof.
  intros Hc Ha. unfold createTrack. unfold_rx. rewrite Hc, Ha. cbn.
  destruct (mediaDuration env (fd_audioFile formData)) as [d|]; cbn.
  all: intros Hrec; split; [intros Hf|intros e Hf]; rewrite Hf in *; cbn in *.
  all: try (rewrite (Hrec _ (or_intror (or_intror (or_introl eq_refl)))); cbn;
            eexists; repeat split; reflexivity).
  all: repeat split; auto; intros record [[=]|[[=]|[]]].
Qed.

Lemma createTrack_cover_write_witness :
  exists track,
    emitted (createTrack Sample.storageCoverWriteFalse Sample.env
               Sample.formWithCover initial) = Some track /\
    Track.coverImageId track = None /\
    _tracks (after (createTrack Sample.storageCoverWriteFalse Sample.env
                      Sample.formWithCover initial)) = [track] /\
    _state (after (createTrack Sample.storageCoverWriteFalse Sample.env
                     Sample.formWithCover initial)) = success.
Proof.
  apply (proj1 (createTrack_cover_write Sample.storageCoverWriteFalse
                  Sample.env Sample.formWithCover initial Sample.picture
                  eq_refl eq_refl (fun _ _ => eq_refl))).
  reflexivity.
Defined.

(** C8. The media element reports a duration that is not negative (HTML:
    the length of the media resource). Then every track that [createTrack]
    returns has a duration that is not negative. When the audio cannot be
    decoded the probe resolves with 0, every track returned has duration 0,
    and the creation succeeds as soon as its writes do. *)
Theorem createTrack_duration S env formData p :
  (forall file d, mediaDuration env file = Some d -> (0 <= d)%Q) ->
  (forall track,
     emitted (createTrack S env formData p) = Some track ->
     (0 <= Track.duration track)%Q)
  /\
  (mediaDuration env (fd_audioFile formData) = None ->
   getAudioDuration env (fd_audioFile formData) = of_ 0%Q /\
   (forall track,
      emitted (createTrack S env formData p) = Some track ->
      Track.duration track = 0%Q) /\
   (ans_saveAudioFile S ("audio-" ++ generateId env) (fd_audioFile formData)
    = Next true ->
    (forall i cover, errored (ans_saveCoverImage S i cover) = false) ->
    (forall record,
       In (SaveTrack record) (calls (createTrack S env formData p)) ->
       ans_saveTrack S record = Next true) ->
    exists track,
      emitted (createTrack S env formData p) = Some track /\
      Track.duration track = 0%Q)).
Proof.
  intros Hmedia. split; [|intros Hnone; split; [|split]].
  - intros track E.
    destruct (createTrack_success _ _ _ _ _ E) as (_ & _ & _ & _ & -> & _).
    destruct (mediaDuration env (fd_audioFile formData)) as [d|] eqn:Ed.
    + exact (Hmedia _ _ Ed).
    + apply Qle_refl.
  - unfold getAudioDuration. now rewrite Hnone.
  - intros track E.
    destruct (createTrack_success _ _ _ _ _ E) as (_ & _ & _ & _ & -> & _).
    now rewrite Hnone.
  - intros Ha Hcov. unfold createTrack. unfold_rx. rewrite Ha, Hnone. cbn.
    destruct (fd_coverImage formData) as [cover|]; cbn.
    + specialize (Hcov ("cover-" ++ generateId env) cover).
      destruct (ans_saveCoverImage S _ cover) as [b|e]; [|discriminate].
      cbn. intros Hrec.
      rewrite (Hrec _ (or_intror (or_intror (or_introl eq_refl)))). cbn.
      eexists; split; reflexivity.
    + intros Hrec. rewrite (Hrec _ (or_intror (or_introl eq_refl))). cbn.
      eexists; split; reflexivity.
Qed.

Lemma createTrack_duration_witness :
  exists track,
    emitted (createTrack Sample.storage Sample.envUndecodable Sample.form
               initial) = Some track /\
    Track.duration track = 0%Q.
Proof.
  apply (createTrack_duration Sample.storage Sample.envUndecodable
           Sample.form initial).
  - intros file d. simpl. discriminate.
  - reflexivity.
  - reflexivity.
  - intros i cover. reflexivity.
  - intros record _. reflexivity.
Defined.

(* ================================================================== *)
(** ** updateTrack *)

(** What a successful update looks like. *)
Lemma updateTrack_success S env id updates p track :
  emitted (updateTrack S env id updates p) = Some track ->
  exists existing,
    ans_getTrack S id = Next (Some existing) /\
    Track.id track = TrackRecord.id existing /\
    Track.createdAt track = TrackRecord.createdAt existing /\
    Track.updatedAt track = now_record env /\
    Track.title track
    = nullish (option_map Js.trim (up_title updates))
        (TrackRecord.title existing) /\
    Track.artist track
    = nullish (option_map Js.trim (up_artist updates))
        (TrackRecord.artist existing) /\
    Track.description track
    = match up_description updates with
      | Some d => Some (Js.trim d)
      | None => TrackRecord.description existing
      end /\
    Track.category track
    = nullish (up_category updates) (TrackRecord.category existing) /\
    Track.audioFileId track
    = match up_audioFile updates with
      | Some _ => "audio-" ++ id ++ "-" ++ Js.numberToString (now_audio env)
      | None => TrackRecord.audioFileId existing
      end /\
    Track.duration track
    = match up_audioFile updates with
      | Some audioFile =>
          match mediaDuration env audioFile with
          | Some d => d
          | None => 0%Q
          end
      | None => TrackRecord.duration existing
      end /\
    Track.coverImageId track
    = match up_coverImage updates with
      | Some cover =>
          match ans_saveCoverImage S
                  ("cover-" ++ id ++ "-" ++ Js.numberToString (now_cover env))
                  cover with
          | Next true =>
              Some ("cover-" ++ id ++ "-" ++ Js.numberToString (now_cover env))
          | _ => TrackRecord.coverImageId existing
          end
      | None => TrackRecord.coverImageId existing
      end /\
    after (updateTrack S env id updates p)
    = set_state success
        (let q := set_tracks
                    (List.map (fun t => if Track.id t =? id then track else t)
                              (_tracks p))
                    (set_state loading p) in
         if selectedHasId q id then set_selectedTrack (Some track) q else q).
Proof.
  unfold updateTrack. unfold_rx.
  destruct (ans_getTrack S id) as [[existing|]|e]; cbn.
  2: discriminate.
  2: destruct e; discriminate.
  intros E. exists existing. split; [reflexivity|]. revert E.
  destruct (up_audioFile updates) as [audioFile|]; cbn.
  - destruct (ans_saveAudioFile S _ audioFile) as [[|]|e]; cbn.
    2: discriminate.
    2: destruct e; discriminate.
    destruct (mediaDuration env audioFile) as [d|]; cbn.
    all: destruct (up_coverImage updates) as [cover|]; cbn.
    all: try (destruct (ans_saveCoverImage S _ cover) as [[|]|e]; cbn).
    all: try (destruct e; discriminate).
    all: destruct (ans_saveTrack S _) as [[|]|e]; cbn.
    all: try discriminate.
    all: try (destruct e; discriminate).
    all: intros [= <-]; cbn; repeat split; auto.
    all: destruct (up_description updates); reflexivity.
  - destruct (up_coverImage updates) as [cover|]; cbn.
    all: try (destruct (ans_saveCoverImage S _ cover) as [[|]|e]; cbn).
    all: try (destruct e; discriminate).
    all: destruct (ans_saveTrack S _) as [[|]|e]; cbn.
    all: try discriminate.
    all: try (destruct e; discriminate).
    all: intros [= <-]; cbn; repeat split; auto.
    all: destruct (up_description updates); reflexivity.
Qed.

(** The storage calls of an update that supplies a cover and no audio. *)
Lemma updateTrack_cover_only_calls S env id updates p existing cover :
  ans_getTrack S id = Next (Some existing) ->
  up_audioFile updates = None ->
  up_coverImage updates = Some cover ->
  exists tail,
    calls (updateTrack S env id updates p)
    = (GetTrack id
       :: SaveCoverImage
            ("cover-" ++ id ++ "-" ++ Js.numberToString (now_cover env)) cover
       :: tail) /\
    forall c, In c tail ->
      (exists i, c = DeleteCoverImage i) \/ (exists r, c = SaveTrack r).
Proof.
  intros Hg Ha Hc. unfold updateTrack. unfold_rx. rewrite Hg, Ha, Hc. cbn.
  destruct (ans_saveCoverImage S _ cover) as [b|e]; cbn.
  - destruct (Js.truthy (TrackRecord.coverImageId existing)) as [old|]; cbn.
    all: eexists; split; [reflexivity|].
    all: intros c Hin;
      repeat (destruct Hin as [<-|Hin]; [eauto|]); contradiction.
  - exists []. split; [reflexivity|]. intros c [].
Qed.

(** C7, as stated, fails: the update supplies only a new cover and
    succeeds, the storage having reported [false] for the write of the
    cover, and the cover id of the track is the one it had. *)
Lemma updateTrack_cover_only_keeps_cover_id :
  ~ (forall S env id updates p existing cover track,
       ans_getTrack S id = Next (Some existing) ->
       up_audioFile updates = None ->
       up_coverImage updates = Some cover ->
       emitted (updateTrack S env id updates p) = Some track ->
       Track.coverImageId track <> TrackRecord.coverImageId existing).
Proof.
  intros claim.
  apply (claim Sample.storageCoverWriteFalse Sample.envLater Sample.id
           Sample.coverOnly Sample.projection Sample.record Sample.picture
           (mapRecordToTrack
              (TrackRecord.mk Sample.id "Song" "Band" None "rock" 3%Q
                 "audio-track-1000-abc1234" (Some "cover-track-1000-abc1234")
                 1001 5000))
           eq_refl eq_refl eq_refl eq_refl).
  reflexivity.
Qed.

(** C7 (amended). A successful update that supplies a cover image and no
    audio leaves [audioFileId] and [duration] as they were in the stored
    record and asks the storage for no audio write or deletion. The cover
    id becomes the fresh [cover-<id>-<now>] when the cover write reports
    [true], which is a change unless the stored record already carried
    that id, and it stays the one of the stored record when the cover
    write reports [false]. Title, artist, description and category keep
    their value when they are not supplied; [updatedAt] is the date of
    the update. *)
Theorem updateTrack_cover_only S env id updates p existing cover track :
  ans_getTrack S id = Next (Some existing) ->
  up_audioFile updates = None ->
  up_coverImage updates = Some cover ->
  emitted (updateTrack S env id updates p) = Some track ->
  Track.audioFileId track = TrackRecord.audioFileId existing /\
  Track.duration track = TrackRecord.duration existing /\
  (forall c, In c (calls (updateTrack S env id updates p)) ->
     (forall i f, c <> SaveAudioFile i f) /\
     (forall i, c <> DeleteAudioFile i)) /\
  (ans_saveCoverImage S
     ("cover-" ++ id ++ "-" ++ Js.numberToString (now_cover env)) cover
   = Next true ->
   Track.coverImageId track
   = Some ("cover-" ++ id ++ "-" ++ Js.numberToString (now_cover env)) /\
   (TrackRecord.coverImageId existing
    <> Some ("cover-" ++ id ++ "-" ++ Js.numberToString (now_cover env)) ->
    Track.coverImageId track <> TrackRecord.coverImageId existing)) /\
  (ans_saveCoverImage S
     ("cover-" ++ id ++ "-" ++ Js.numberToString (now_cover env)) cover
   = Next false ->
   Track.coverImageId track = TrackRecord.coverImageId existing) /\
  (exists report,
     ans_saveCoverImage S
       ("cover-" ++ id ++ "-" ++ Js.numberToString (now_cover env)) cover
     = Next report) /\
  (up_title updates = None ->
   Track.title track = TrackRecord.title existing) /\
  (up_artist updates = None ->
   Track.artist track = TrackRecord.artist existing) /\
  (up_description updates = None ->
   Track.description track = TrackRecord.description existing) /\
  (up_category updates = None ->
   Track.category track = TrackRecord.category existing) /\
  Track.id track = TrackRecord.id existing /\
  Track.createdAt track = TrackRecord.createdAt existing /\
  Track.updatedAt track = now_record env.
Proof.
  intros Hg Ha Hc E.
  destruct (updateTrack_success _ _ _ _ _ _ E)
    as (existing' & Hg' & Hid & Hcr & Hup & Ht & Har & Hd & Hcat & Hau & Hdu
        & Hco & _).
  rewrite Hg in Hg'. injection Hg' as <-.
  rewrite Ha in Hau, Hdu. rewrite Hc in Hco.
  split; [exact Hau|]. split; [exact Hdu|]. split.
  { intros c Hin.
    destruct (updateTrack_cover_only_calls S env id updates p existing cover
                Hg Ha Hc) as (tail & Hcalls & Htail).
    rewrite Hcalls in Hin.
    destruct Hin as [<-|[<-|Hin]]; [split; discriminate..|].
    destruct (Htail _ Hin) as [[j ->]|[r ->]]; split; discriminate. }
  split.
  { intros Hs. rewrite Hs in Hco. split; [exact Hco|].
    intros Hne Heq. apply Hne. now rewrite <- Heq. }
  split; [intros Hs; now rewrite Hs in Hco|].
  split.
  { revert E. unfold updateTrack. unfold_rx. rewrite Hg, Ha, Hc. cbn.
    destruct (ans_saveCoverImage S _ cover) as [report|e]; cbn.
    - intros _. now exists report.
    - destruct e; discriminate. }
  split; [intros Hn; now rewrite Hn in Ht|].
  split; [intros Hn; now rewrite Hn in Har|].
  split; [intros Hn; now rewrite Hn in Hd|].
  split; [intros Hn; now rewrite Hn in Hcat|].
  auto.
Qed.

Lemma updateTrack_cover_only_witness :
  exists track,
    emitted (updateTrack Sample.storage Sample.envLater Sample.id
               Sample.coverOnly Sample.projection) = Some track /\
    Track.audioFileId track = "audio-track-1000-abc1234" /\
    Track.duration track = 3%Q /\
    Track.coverImageId track = Some "cover-track-1000-abc1234-4500" /\
    Track.coverImageId track <> Some "cover-track-1000-abc1234" /\
    Track.updatedAt track = 5000.
Proof.
  eexists. split; [reflexivity|].
  pose proof (updateTrack_cover_only Sample.storage Sample.envLater Sample.id
                Sample.coverOnly Sample.projection Sample.record
                Sample.picture _ eq_refl eq_refl eq_refl eq_refl)
    as (Ha & Hd & _ & Hc & _ & _ & _ & _ & _ & _ & _ & _ & Hu).
  destruct (Hc eq_refl) as [Hnew Hchanged].
  refine (conj Ha (conj Hd (conj Hnew (conj (Hchanged _) Hu)))).
  simpl. discriminate.
Defined.

(* ================================================================== *)
(** ** The order of the list (C6) *)

Section SortFacts.
Context {A : Type} (compareFn : A -> A -> Z).

Lemma insert_perm x l : Permutation (Js.insert compareFn x l) (x :: l).
Proof.
  induction l as [|y l IH]; cbn; [reflexivity|].
  destruct (0 <? compareFn x y)%Z; [|reflexivity].
  rewrite IH. apply perm_swap.
Qed.

Lemma sort_perm l : Permutation (Js.sort compareFn l) l.
Proof.
  induction l as [|x l IH]; cbn; [reflexivity|].
  now rewrite insert_perm, IH.
Qed.
End SortFacts.

Lemma insert_newestFirstWeak x l :
  newestFirstWeak l -> newestFirstWeak (Js.insert compareCreatedAt x l).
Proof.
  unfold newestFirstWeak.
  induction l as [|y l IH]; cbn; intros Hs.
  - constructor; constructor.
  - apply StronglySorted_inv in Hs as [Hl Hy].
    unfold compareCreatedAt at 1.
    destruct (Z.ltb_spec 0 (Track.createdAt y - Track.createdAt x)) as [Hlt|Hge].
    + constructor; [now apply IH|].
      apply (Permutation_Forall (Permutation_sym (insert_perm _ x l))).
      constructor; [lia|exact Hy].
    + constructor; [now constructor|].
      constructor; [lia|].
      eapply Forall_impl; [|exact Hy]. cbn. intros; lia.
Qed.

Lemma sort_newestFirstWeak l : newestFirstWeak (Js.sort compareCreatedAt l).
Proof.
  induction l as [|x l IH]; cbn.
  - constructor.
  - now apply insert_newestFirstWeak.
Qed.

Lemma newestFirstWeak_distinct l :
  newestFirstWeak l -> NoDup (List.map Track.createdAt l) -> newestFirst l.
Proof.
  unfold newestFirstWeak, newestFirst.
  induction l as [|a l IH]; cbn; intros Hs Hd; [constructor|].
  apply StronglySorted_inv in Hs as [Hl Ha].
  apply NoDup_cons_iff in Hd as [Hnin Hd].
  constructor; [now apply IH|].
  rewrite Forall_forall in *. intros b Hb.
  specialize (Ha b Hb).
  assert (Track.createdAt b <> Track.createdAt a).
  { intros Heq. apply Hnin. rewrite <- Heq. now apply in_map. }
  lia.
Qed.

(** [newestFirst] only looks at the creation dates. *)
Lemma newestFirst_dates l l' :
  List.map Track.createdAt l = List.map Track.createdAt l' ->
  newestFirst l -> newestFirst l'.
Proof.
  unfold newestFirst. revert l'.
  induction l as [|a l IH]; intros [|a' l'] Heq Hs; try discriminate.
  - constructor.
  - cbn in Heq. injection Heq as Ha Hl.
    apply StronglySorted_inv in Hs as [Hs Hall].
    constructor; [now apply IH|].
    assert (Forall (fun d => d < Track.createdAt a) (List.map Track.createdAt l))
      as Hd by (apply Forall_map; exact Hall).
    rewrite Hl, Ha in Hd. now apply Forall_map in Hd.
Qed.

Lemma newestFirst_filter f l :
  newestFirst l -> newestFirst (List.filter f l).
Proof.
  unfold newestFirst.
  induction l as [|a l IH]; cbn; intros Hs; [constructor|].
  apply StronglySorted_inv in Hs as [Hs Hall].
  destruct (f a); [|now apply IH].
  constructor; [now apply IH|].
  rewrite Forall_forall in *. intros b Hb.
  apply Hall. now apply filter_In in Hb.
Qed.

Lemma loadTracks_after S p :
  after (loadTracks S p)
  = match ans_getAllTracks S with
    | Next records =>
        set_state success
          (set_tracks (Js.sort compareCreatedAt
                         (List.map mapRecordToTrack records))
             (set_state loading p))
    | Err e => handleError e (set_state loading p)
    end.
Proof.
  unfold loadTracks. unfold_rx. cbn.
  destruct (ans_getAllTracks S); reflexivity.
Qed.

Lemma loadTracks_newestFirst S p :
  newestFirst (_tracks p) ->
  (forall records, ans_getAllTracks S = Next records ->
     NoDup (List.map TrackRecord.createdAt records)) ->
  newestFirst (_tracks (after (loadTracks S p))).
Proof.
  intros Hp Hd. rewrite loadTracks_after.
  destruct (ans_getAllTracks S) as [records|e].
  - cbn. apply newestFirstWeak_distinct; [apply sort_newestFirstWeak|].
    apply (Permutation_NoDup
             (Permutation_map Track.createdAt
                (Permutation_sym (sort_perm compareCreatedAt _)))).
    rewrite List.map_map. cbn. now apply Hd.
  - destruct (handleError_spec e (set_state loading p)) as (-> & _). exact Hp.
Qed.

Lemma createTrack_newestFirst S env formData p :
  newestFirst (_tracks p) ->
  Forall (fun u => Track.createdAt u < now_record env) (_tracks p) ->
  newestFirst (_tracks (after (createTrack S env formData p))).
Proof.
  intros Hp Hnew.
  destruct (emitted (createTrack S env formData p)) as [track|] eqn:E.
  - destruct (createTrack_success _ _ _ _ _ E)
      as (_ & _ & _ & _ & _ & Hc & _ & ->).
    cbn. constructor; [exact Hp|]. now rewrite Hc.
  - destruct (createTrack_failure _ _ _ _ E) as [e ->].
    destruct (handleError_spec e (set_state loading p)) as (-> & _). exact Hp.
Qed.

Lemma updateTrack_newestFirst S env id updates p :
  newestFirst (_tracks p) ->
  (forall r u, ans_getTrack S id = Next (Some r) ->
     In u (_tracks p) -> Track.id u = id ->
     Track.createdAt u = TrackRecord.createdAt r) ->
  newestFirst (_tracks (after (updateTrack S env id updates p))).
Proof.
  intros Hp Hstore.
  destruct (emitted (updateTrack S env id updates p)) as [track|] eqn:E.
  - destruct (updateTrack_success _ _ _ _ _ _ E)
      as (existing & Hg & _ & Hc & _ & _ & _ & _ & _ & _ & _ & _ & ->).
    apply (newestFirst_dates (_tracks p)); [|exact Hp].
    assert (_tracks
              (set_state success
                 (let q :=
                    set_tracks
                      (List.map (fun t => if Track.id t =? id then track else t)
                         (_tracks p)) (set_state loading p) in
                  if selectedHasId q id
                  then set_selectedTrack (Some track) q else q))
            = List.map (fun t => if Track.id t =? id then track else t)
                (_tracks p)) as ->.
    { cbn. now destruct (selectedHasId _ id). }
    rewrite List.map_map. apply List.map_ext_in. intros u Hu.
    destruct (String.eqb_spec (Track.id u) id) as [Hid|]; [|reflexivity].
    rewrite Hc. exact (Hstore existing u Hg Hu Hid).
  - destruct (updateTrack_failure _ _ _ _ _ E) as [e ->].
    destruct (handleError_spec e (set_state loading p)) as (-> & _). exact Hp.
Qed.

Lemma deleteTrack_newestFirst S id p :
  newestFirst (_tracks p) ->
  newestFirst (_tracks (after (deleteTrack S id p))).
Proof.
  intros Hp.
  destruct (emitted (deleteTrack S id p)) eqn:E.
  - rewrite (deleteTrack_success _ _ _ E). cbn.
    destruct (selectedHasId _ id); cbn; now apply newestFirst_filter.
  - destruct (deleteTrack_failure _ _ _ E) as [e ->].
    destruct (handleError_spec e (set_state loading p)) as (-> & _). exact Hp.
Qed.

(** C6, as stated, fails: two creations, the second reading an earlier
    date than the first, leave a list of distinct creation dates that is
    not sorted, the track dated 1001 in front of the track dated 5000. *)
Lemma tracks_not_newest_first_after_earlier_clock :
  ~ (forall S env formData p,
       newestFirst (_tracks p) ->
       NoDup (List.map Track.createdAt
                (_tracks (after (createTrack S env formData p)))) ->
       newestFirst (_tracks (after (createTrack S env formData p)))).
Proof.
  intros claim.
  specialize (claim Sample.storage Sample.env Sample.form
                (after (createTrack Sample.storage Sample.envLater Sample.form
                          initial))).
  assert (newestFirst
            (_tracks (after (createTrack Sample.storage Sample.env Sample.form
               (after (createTrack Sample.storage Sample.envLater Sample.form
                         initial)))))) as Hsorted.
  { apply claim.
    - simpl. repeat constructor.
    - simpl. repeat constructor; simpl; intuition discriminate. }
  simpl in Hsorted. apply StronglySorted_inv in Hsorted as [_ Hall].
  apply Forall_inv in Hall. simpl in Hall. lia.
Qed.

(** C6 (amended). The list is sorted by [createdAt], newest first, as
    far as the edits allow. A reload installs the sorted records: newest
    first, strictly when their creation dates are distinct. A creation
    puts the new track, dated by the clock, in front: the list is strictly
    newest first afterwards exactly when it was before and the clock is
    later than every date listed. An update replaces in place a track of
    the creation date of the stored record: the order is kept when the
    listed tracks of that id have that date. A deletion filters: the
    order is kept. *)
Theorem tracks_newest_first :
  (forall S p records,
     ans_getAllTracks S = Next records ->
     _tracks (after (loadTracks S p))
     = Js.sort compareCreatedAt (List.map mapRecordToTrack records) /\
     newestFirstWeak (_tracks (after (loadTracks S p))) /\
     (NoDup (List.map TrackRecord.createdAt records) ->
      newestFirst (_tracks (after (loadTracks S p))))) /\
  (forall S env formData p track,
     emitted (createTrack S env formData p) = Some track ->
     _tracks (after (createTrack S env formData p)) = track :: _tracks p /\
     Track.createdAt track = now_record env /\
     (newestFirst (_tracks (after (createTrack S env formData p))) <->
      newestFirst (_tracks p) /\
      Forall (fun u => Track.createdAt u < now_record env) (_tracks p))) /\
  (forall S env id updates p track,
     emitted (updateTrack S env id updates p) = Some track ->
     _tracks (after (updateTrack S env id updates p))
     = List.map (fun t => if Track.id t =? id then track else t) (_tracks p) /\
     exists existing,
       ans_getTrack S id = Next (Some existing) /\
       Track.createdAt track = TrackRecord.createdAt existing /\
       ((forall u, In u (_tracks p) -> Track.id u = id ->
           Track.createdAt u = TrackRecord.createdAt existing) ->
        newestFirst (_tracks p) ->
        newestFirst (_tracks (after (updateTrack S env id updates p))))) /\
  (forall S id p,
     (emitted (deleteTrack S id p) = true ->
      _tracks (after (deleteTrack S id p))
      = List.filter (fun t => negb (Track.id t =? id)) (_tracks p)) /\
     (newestFirst (_tracks p) ->
      newestFirst (_tracks (after (deleteTrack S id p))))).
Proof.
  split; [|split; [|split]].
  - intros S p records H. rewrite loadTracks_after, H. cbn.
    split; [reflexivity|]. split; [apply sort_newestFirstWeak|].
    intros Hd. apply newestFirstWeak_distinct; [apply sort_newestFirstWeak|].
    apply (Permutation_NoDup
             (Permutation_map Track.createdAt
                (Permutation_sym (sort_perm compareCreatedAt _)))).
    rewrite List.map_map. exact Hd.
  - intros S env formData p track E.
    destruct (createTrack_success _ _ _ _ _ E)
      as (_ & _ & _ & _ & _ & Hc & _ & ->).
    cbn. split; [reflexivity|]. split; [exact Hc|]. unfold newestFirst. split.
    + intros Hs. apply StronglySorted_inv in Hs as [Hs Hall].
      split; [exact Hs|]. now rewrite Hc in Hall.
    + intros [Hs Hall]. constructor; [exact Hs|]. now rewrite Hc.
  - intros S env id updates p track E.
    destruct (updateTrack_success _ _ _ _ _ _ E)
      as (existing & Hg & _ & Hc & _).
    split.
    + destruct (updateTrack_success _ _ _ _ _ _ E)
        as (existing' & _ & _ & _ & _ & _ & _ & _ & _ & _ & _ & _ & ->).
      cbn. now destruct (selectedHasId _ id).
    + exists existing. split; [exact Hg|]. split; [exact Hc|].
      intros Hstore Hp. apply updateTrack_newestFirst; [exact Hp|].
      intros r u Hr Hu Hid. rewrite Hg in Hr. injection Hr as <-.
      now apply Hstore.
  - intros S id p. split.
    + intros E. rewrite (deleteTrack_success _ _ _ E). cbn.
      now destruct (selectedHasId _ id).
    + apply deleteTrack_newestFirst.
Qed.

Lemma tracks_newest_first_witness :
  _tracks (after (loadTracks Sample.storageTwo initial))
  = [Sample.track; Sample.older] /\
  newestFirst (_tracks (after (loadTracks Sample.storageTwo initial))) /\
  newestFirst
    (_tracks (after (createTrack Sample.storage Sample.envLater Sample.form
                       (after (loadTracks Sample.storageTwo initial))))) /\
  _tracks (after (deleteTrack Sample.storage Sample.id
                    (after (loadTracks Sample.storageTwo initial))))
  = [Sample.older] /\
  newestFirst
    (_tracks (after (deleteTrack Sample.storage Sample.id
                       (after (loadTracks Sample.storageTwo initial))))).
Proof.
  destruct tracks_newest_first as (Hload & Hcreate & _ & Hdelete).
  destruct (Hload Sample.storageTwo initial
              [Sample.olderRecord; Sample.record] eq_refl)
    as (Hlist & _ & Hstrict).
  assert (newestFirst (_tracks (after (loadTracks Sample.storageTwo initial))))
    as Hsorted.
  { apply Hstrict. simpl. repeat constructor; simpl; intuition discriminate. }
  split; [rewrite Hlist; reflexivity|]. split; [exact Hsorted|]. split.
  - destruct (Hcreate Sample.storage Sample.envLater Sample.form
                (after (loadTracks Sample.storageTwo initial)) _ eq_refl)
      as (_ & _ & Hiff).
    apply Hiff. split; [exact Hsorted|].
    rewrite Hlist. simpl. repeat constructor.
  - destruct (Hdelete Sample.storage Sample.id
                (after (loadTracks Sample.storageTwo initial)))
      as (Hfilter & Hkeep).
    split; [rewrite (Hfilter eq_refl), Hlist; reflexivity|exact (Hkeep Hsorted)].
Defined.

(* ================================================================== *)
(** ** Blob ids (C5) *)

Lemma append_assoc (a b c : string) : (a ++ b) ++ c = a ++ (b ++ c).
Proof.
  induction a as [|x a IH]; cbn; [reflexivity|]. now rewrite IH.
Qed.

Lemma append_empty_r (a : string) : a ++ EmptyString = a.
Proof.
  induction a as [|x a IH]; cbn; [reflexivity|]. now rewrite IH.
Qed.

Lemma append_cancel_l (k a b : string) : k ++ a = k ++ b -> a = b.
Proof.
  induction k as [|x k IH]; cbn; [auto|].
  intros [= H]. now apply IH.
Qed.

Lemma noDash_uint d : noDash (NilEmpty.string_of_uint d) = true.
Proof.
  induction d; cbn; auto.
Qed.

Lemma noDash_numberToString n :
  0 <= n -> noDash (Js.numberToString n) = true.
Proof.
  unfold Js.numberToString. destruct n as [|q|q]; intros Hn.
  - reflexivity.
  - cbn. unfold NilZero.string_of_uint.
    destruct (Pos.to_uint q) as [|d|d|d|d|d|d|d|d|d|d]; [reflexivity|..].
    all: match goal with |- noDash (NilEmpty.string_of_uint ?u) = true =>
           exact (noDash_uint u) end.
  - lia.
Qed.

(** A string without dash, a dash, and a rest: the first dash tells where
    the first part ends. *)
Lemma split_at_dash a b x y :
  noDash a = true -> noDash b = true ->
  a ++ "-" ++ x = b ++ "-" ++ y -> a = b /\ x = y.
Proof.
  revert b. induction a as [|c a IH]; intros [|c' b]; cbn; intros Ha Hb Heq.
  - injection Heq as ->. auto.
  - injection Heq as <- _. discriminate Hb.
  - injection Heq as -> _. discriminate Ha.
  - injection Heq as -> Heq.
    apply andb_true_iff in Ha as [_ Ha]. apply andb_true_iff in Hb as [_ Hb].
    destruct (IH b Ha Hb Heq) as [-> ->]. auto.
Qed.

Lemma noDash_with_dash a x : noDash (a ++ "-" ++ x) = false.
Proof.
  induction a as [|c a IH]; cbn in *; [reflexivity|].
  rewrite IH. apply andb_false_r.
Qed.

Lemma scoped_suffix kind id blobId :
  scoped kind id blobId ->
  exists sfx,
    blobId = kind ++ id ++ sfx /\
    (sfx = EmptyString \/ exists now, sfx = "-" ++ Js.numberToString now).
Proof.
  intros [->|(now & _ & ->)].
  - exists EmptyString. rewrite append_empty_r. auto.
  - exists ("-" ++ Js.numberToString now). eauto.
Qed.

Lemma generated_split kind t1 r1 sfx1 t2 r2 sfx2 :
  0 <= t1 -> 0 <= t2 ->
  kind ++ ("track-" ++ Js.numberToString t1 ++ "-" ++ r1) ++ sfx1
  = kind ++ ("track-" ++ Js.numberToString t2 ++ "-" ++ r2) ++ sfx2 ->
  Js.numberToString t1 = Js.numberToString t2 /\ r1 ++ sfx1 = r2 ++ sfx2.
Proof.
  intros H1 H2 Heq. apply append_cancel_l in Heq.
  rewrite !append_assoc in Heq. apply append_cancel_l in Heq.
  apply split_at_dash in Heq; auto using noDash_numberToString.
Qed.

(** Blob ids scoped to two generated track ids coincide only when the
    track ids do. *)
Lemma scoped_same_track kind id1 id2 blobId :
  generated id1 -> generated id2 ->
  scoped kind id1 blobId -> scoped kind id2 blobId -> id1 = id2.
Proof.
  intros (t1 & r1 & Ht1 & Hr1 & ->) (t2 & r2 & Ht2 & Hr2 & ->) H1 H2.
  apply scoped_suffix in H1 as (sfx1 & -> & H1).
  apply scoped_suffix in H2 as (sfx2 & E & H2).
  apply generated_split in E as [Et Er]; trivial.
  assert (r1 = r2) as ->.
  { destruct H1 as [->|[n1 ->]]; destruct H2 as [->|[n2 ->]].
    - now rewrite !append_empty_r in Er.
    - rewrite append_empty_r in Er. subst r1.
      rewrite noDash_with_dash in Hr1. discriminate.
    - rewrite append_empty_r in Er. subst r2.
      rewrite noDash_with_dash in Hr2. discriminate.
    - now apply split_at_dash in Er as [-> _]. }
  now rewrite Et.
Qed.

(** An audio id is never a cover id. *)
Lemma scoped_kinds id1 id2 a c :
  scoped "audio-" id1 a -> scoped "cover-" id2 c -> a <> c.
Proof.
  intros [->|(n1 & _ & ->)] [->|(n2 & _ & ->)]; cbn; discriminate.
Qed.

(** C5, as stated, fails: the cover id that [createTrack] gives a track
    is [cover-<trackId>], without a timestamp. *)
Lemma createTrack_cover_id_without_timestamp :
  ~ (forall S env formData p track,
       emitted (createTrack S env formData p) = Some track ->
       Track.audioFileId track = "audio-" ++ Track.id track /\
       forall coverImageId,
         Track.coverImageId track = Some coverImageId ->
         coverWithTimestamp (Track.id track) coverImageId).
Proof.
  intros claim.
  destruct (claim Sample.storage Sample.env Sample.formWithCover initial
              _ eq_refl) as [_ Hcover].
  destruct (Hcover _ eq_refl) as [now Hnow].
  cbn in Hnow. discriminate Hnow.
Qed.

(** C5 (amended). The blob ids of a track are built from the track id:
    [createTrack] gives [audio-<id>] and, when the cover is written,
    [cover-<id>]; [updateTrack] keeps the ids of the stored record, except
    that a new audio gets [audio-<id>-<now>] and a new cover, once written,
    [cover-<id>-<now>], so ids scoped to the track stay so. Ids scoped to
    two tracks whose ids come from [generateId] are equal only when the
    tracks are the same, and an audio id is never a cover id. *)
Theorem blob_ids_track_scoped :
  (forall S env formData p track,
     emitted (createTrack S env formData p) = Some track ->
     Track.audioFileId track = "audio-" ++ Track.id track /\
     (Track.coverImageId track = None \/
      Track.coverImageId track = Some ("cover-" ++ Track.id track)))
  /\
  (forall S env id updates p track,
     emitted (updateTrack S env id updates p) = Some track ->
     0 <= now_audio env -> 0 <= now_cover env ->
     exists existing,
       ans_getTrack S id = Next (Some existing) /\
       (up_audioFile updates = None ->
        Track.audioFileId track = TrackRecord.audioFileId existing) /\
       (up_audioFile updates <> None ->
        Track.audioFileId track
        = "audio-" ++ id ++ "-" ++ Js.numberToString (now_audio env)) /\
       (Track.coverImageId track = TrackRecord.coverImageId existing \/
        up_coverImage updates <> None /\
        Track.coverImageId track
        = Some ("cover-" ++ id ++ "-" ++ Js.numberToString (now_cover env))) /\
       (scoped "audio-" id (TrackRecord.audioFileId existing) ->
        scoped "audio-" id (Track.audioFileId track)) /\
       (forall old new,
          TrackRecord.coverImageId existing = Some old ->
          scoped "cover-" id old ->
          Track.coverImageId track = Some new ->
          scoped "cover-" id new))
  /\
  (forall kind id1 id2 blobId,
     generated id1 -> generated id2 ->
     scoped kind id1 blobId -> scoped kind id2 blobId -> id1 = id2)
  /\
  (forall id1 id2 audioFileId coverImageId,
     scoped "audio-" id1 audioFileId -> scoped "cover-" id2 coverImageId ->
     audioFileId <> coverImageId).
Proof.
  split; [|split; [|split]].
  - intros S env formData p track E.
    destruct (createTrack_success _ _ _ _ _ E) as (_ & -> & -> & Hc & _).
    auto.
  - intros S env id updates p track E Hna Hnc.
    destruct (updateTrack_success _ _ _ _ _ _ E)
      as (existing & Hg & _ & _ & _ & _ & _ & _ & _ & Hau & _ & Hco & _).
    exists existing. split; [exact Hg|].
    assert (Track.coverImageId track = TrackRecord.coverImageId existing \/
            up_coverImage updates <> None /\
            Track.coverImageId track
            = Some ("cover-" ++ id ++ "-" ++ Js.numberToString (now_cover env)))
      as Hcover.
    { rewrite Hco. destruct (up_coverImage updates) as [cover|]; [|auto].
      destruct (ans_saveCoverImage S _ cover) as [[|]|e]; auto.
      right. split; [discriminate|reflexivity]. }
    repeat split.
    + intros Hn. now rewrite Hn in Hau.
    + intros Hs. destruct (up_audioFile updates); [exact Hau|now elim Hs].
    + exact Hcover.
    + intros Hscoped. rewrite Hau.
      destruct (up_audioFile updates); [|exact Hscoped].
      right. eauto.
    + intros old new Hold Hscoped Hnew.
      destruct Hcover as [Hsame|[_ Hfresh]].
      * rewrite Hsame, Hold in Hnew. now injection Hnew as <-.
      * rewrite Hfresh in Hnew. injection Hnew as <-. right. eauto.
  - exact scoped_same_track.
  - exact scoped_kinds.
Qed.

Lemma blob_ids_track_scoped_witness :
  exists existing,
    ans_getTrack Sample.storage Sample.id = Next (Some existing) /\
    Track.audioFileId Sample.track = TrackRecord.audioFileId existing.
Proof.
  destruct (proj1 (proj2 blob_ids_track_scoped) Sample.storage Sample.envLater
              Sample.id Sample.coverOnly Sample.projection
              (mapRecordToTrack
                 (TrackRecord.mk Sample.id "Song" "Band" None "rock" 3%Q
                    "audio-track-1000-abc1234"
                    (Some "cover-track-1000-abc1234-4500") 1001 5000))
              eq_refl)
    as (existing & Hg & Hkeep & _).
  - simpl. lia.
  - simpl. lia.
  - exists existing. split; [exact Hg|].
    rewrite <- (Hkeep eq_refl). reflexivity.
Defined.

(* ================================================================== *)
(** ** updateTrack: replacing blobs (C2) *)

(** The answers to the deletions of the old blobs have no influence on an
    update: not on the value it emits, not on the calls it makes, not on
    the projection. *)
Lemma updateTrack_cleanup_swallowed S audio cover env id updates p :
  updateTrack (withBlobDeletions S audio cover) env id updates p
  = updateTrack S env id updates p.
Proof.
  reflexivity.
Qed.

(** With a new audio supplied, the old audio blob is deleted right after
    the new one is written and probed; when the write fails nothing is
    deleted. *)
Lemma updateTrack_old_audio S env id updates p existing audioFile :
  ans_getTrack S id = Next (Some existing) ->
  up_audioFile updates = Some audioFile ->
  (ans_saveAudioFile S
     ("audio-" ++ id ++ "-" ++ Js.numberToString (now_audio env)) audioFile
   = Next true ->
   exists rest,
     calls (updateTrack S env id updates p)
     = GetTrack id
       :: SaveAudioFile
            ("audio-" ++ id ++ "-" ++ Js.numberToString (now_audio env))
            audioFile
       :: DeleteAudioFile (TrackRecord.audioFileId existing)
       :: rest)
  /\
  (failed (ans_saveAudioFile S
             ("audio-" ++ id ++ "-" ++ Js.numberToString (now_audio env))
             audioFile) ->
   emitted (updateTrack S env id updates p) = None /\
   calls (updateTrack S env id updates p)
   = [GetTrack id;
      SaveAudioFile
        ("audio-" ++ id ++ "-" ++ Js.numberToString (now_audio env))
        audioFile]).
Proof.
  intros Hg Ha. unfold failed, updateTrack. unfold_rx. rewrite Hg, Ha. cbn.
  destruct (ans_saveAudioFile S _ audioFile) as [[|]|e]; cbn; split;
    try discriminate; try congruence; auto.
  intros _.
  destruct (mediaDuration env audioFile);
    destruct (up_coverImage updates) as [cover|]; cbn.
  all: try (destruct (ans_saveCoverImage S _ cover); cbn).
  all: eexists; reflexivity.
Qed.

(** With a new cover supplied, the old cover blob is deleted as soon as
    the write of the new one completes, also when it completes with the
    report [false]: the record then keeps the id of the deleted blob. *)
Lemma updateTrack_old_cover S env id updates p existing cover old report :
  ans_getTrack S id = Next (Some existing) ->
  up_audioFile updates = None ->
  up_coverImage updates = Some cover ->
  Js.truthy (TrackRecord.coverImageId existing) = Some old ->
  ans_saveCoverImage S
    ("cover-" ++ id ++ "-" ++ Js.numberToString (now_cover env)) cover
  = Next report ->
  exists record,
    calls (updateTrack S env id updates p)
    = [GetTrack id;
       SaveCoverImage
         ("cover-" ++ id ++ "-" ++ Js.numberToString (now_cover env)) cover;
       DeleteCoverImage old;
       SaveTrack record] /\
    TrackRecord.coverImageId record
    = if report
      then Some ("cover-" ++ id ++ "-" ++ Js.numberToString (now_cover env))
      else TrackRecord.coverImageId existing.
Proof.
  intros Hg Ha Hc Hold Hs. unfold updateTrack. unfold_rx.
  rewrite Hg, Ha, Hc. cbn in *. rewrite Hs. cbn. rewrite Hold. cbn.
  eexists. split; reflexivity.
Qed.

(** C2. The code at the failing input: the track has a cover, the update
    supplies a new one and the storage reports [false] for its write. The
    old cover blob is deleted all the same, the record written and the
    track returned still carry its id. *)
Theorem updateTrack_deletes_cover_not_replaced :
  ans_saveCoverImage Sample.storageCoverWriteFalse
    "cover-track-1000-abc1234-4500" Sample.picture = Next false /\
  exists record,
    calls (updateTrack Sample.storageCoverWriteFalse Sample.envLater
             Sample.id Sample.coverOnly Sample.projection)
    = [GetTrack "track-1000-abc1234";
       SaveCoverImage "cover-track-1000-abc1234-4500" Sample.picture;
       DeleteCoverImage "cover-track-1000-abc1234";
       SaveTrack record] /\
    TrackRecord.coverImageId record = Some "cover-track-1000-abc1234" /\
    emitted (updateTrack Sample.storageCoverWriteFalse Sample.envLater
               Sample.id Sample.coverOnly Sample.projection)
    = Some (mapRecordToTrack record).
Proof.
  split; [reflexivity|]. eexists. repeat split.
Qed.

(* ================================================================== *)
(** ** Tracks that are not stored *)

(** X1. When the storage has no record for the id, [updateTrack] and
    [deleteTrack] ask the storage for nothing but the lookup: no write, no
    deletion. They emit [null] and [false], the projection is in the
    [error] state with the message [Track not found], and the list and
    the selection are the ones before the call. *)
Theorem missing_track_reported S env id p :
  ans_getTrack S id = Next None ->
  (forall updates,
     emitted (updateTrack S env id updates p) = None /\
     calls (updateTrack S env id updates p) = [GetTrack id] /\
     after (updateTrack S env id updates p)
     = mkProjection (_tracks p) error (Some "Track not found")
         (_selectedTrack p)) /\
  (emitted (deleteTrack S id p) = false /\
   calls (deleteTrack S id p) = [GetTrack id] /\
   after (deleteTrack S id p)
   = mkProjection (_tracks p) error (Some "Track not found")
       (_selectedTrack p)).
Proof.
  intros H. split; [intros updates|].
  - unfold updateTrack. unfold_rx. rewrite H. cbn. auto.
  - unfold deleteTrack. unfold_rx. rewrite H. cbn. auto.
Qed.

Lemma missing_track_reported_witness :
  emitted (deleteTrack Sample.storage "track-1-none" Sample.projection) = false /\
  calls (deleteTrack Sample.storage "track-1-none" Sample.projection)
  = [GetTrack "track-1-none"] /\
  after (deleteTrack Sample.storage "track-1-none" Sample.projection)
  = mkProjection [Sample.track; Sample.older] error (Some "Track not found")
      (Some Sample.track).
Proof.
  apply (proj2 (missing_track_reported Sample.storage Sample.env
                  "track-1-none" Sample.projection eq_refl)).
Defined.

(* ================================================================== *)
(** ** updateTrack: a new audio *)

(** X2. An update that supplies a new audio and no cover, on a stored
    track, when the audio is written: the storage is asked, in this order,
    for the record, the write of the new audio under
    [audio-<id>-<now>], the deletion of the old audio and the write of the
    record. The record written carries the new audio id and the duration
    probed from the new audio (0 when it cannot be decoded), and the cover
    id and creation date it had. The update succeeds exactly when the
    record write reports [true]; when it does not, the update fails and the
    list is untouched, although the deletion of the old audio has been
    asked for. *)
Theorem updateTrack_audio_replacement S env id updates p existing audioFile :
  ans_getTrack S id = Next (Some existing) ->
  up_audioFile updates = Some audioFile ->
  up_coverImage updates = None ->
  ans_saveAudioFile S
    ("audio-" ++ id ++ "-" ++ Js.numberToString (now_audio env)) audioFile
  = Next true ->
  exists record,
    calls (updateTrack S env id updates p)
    = [GetTrack id;
       SaveAudioFile
         ("audio-" ++ id ++ "-" ++ Js.numberToString (now_audio env))
         audioFile;
       DeleteAudioFile (TrackRecord.audioFileId existing);
       SaveTrack record] /\
    TrackRecord.audioFileId record
    = "audio-" ++ id ++ "-" ++ Js.numberToString (now_audio env) /\
    TrackRecord.duration record
    = match mediaDuration env audioFile with
      | Some d => d
      | None => 0%Q
      end /\
    TrackRecord.coverImageId record = TrackRecord.coverImageId existing /\
    TrackRecord.createdAt record = TrackRecord.createdAt existing /\
    TrackRecord.updatedAt record = now_record env /\
    (ans_saveTrack S record = Next true ->
     emitted (updateTrack S env id updates p)
     = Some (mapRecordToTrack record)) /\
    (failed (ans_saveTrack S record) ->
     emitted (updateTrack S env id updates p) = None /\
     _tracks (after (updateTrack S env id updates p)) = _tracks p /\
     _state (after (updateTrack S env id updates p)) = error).
Proof.
  intros Hg Ha Hc Hs. unfold failed, updateTrack. unfold_rx.
  rewrite Hg, Ha, Hc. cbn in *. rewrite Hs. cbn.
  destruct (mediaDuration env audioFile) as [d|]; cbn.
  all: eexists; split; [reflexivity|]; cbn.
  all: repeat (split; [reflexivity|]).
  all: split; [intros ->; reflexivity|].
  all: destruct (ans_saveTrack S _) as [[|]|e]; cbn; intros Hf;
    [ now elim Hf | auto | destruct e; auto ].
Qed.

Lemma updateTrack_audio_replacement_witness :
  exists record,
    calls (updateTrack Sample.storageRecordWriteFalse Sample.envLater
             Sample.id Sample.newAudio Sample.projection)
    = [GetTrack Sample.id;
       SaveAudioFile "audio-track-1000-abc1234-4000" Sample.song;
       DeleteAudioFile "audio-track-1000-abc1234";
       SaveTrack record] /\
    emitted (updateTrack Sample.storageRecordWriteFalse Sample.envLater
               Sample.id Sample.newAudio Sample.projection) = None.
Proof.
  destruct (updateTrack_audio_replacement Sample.storageRecordWriteFalse
              Sample.envLater Sample.id Sample.newAudio Sample.projection
              Sample.record Sample.song eq_refl eq_refl eq_refl eq_refl)
    as (record & Hcalls & Hid & _ & _ & _ & _ & _ & Hfail).
  exists record. split; [exact Hcalls|].
  apply Hfail. unfold failed. simpl. discriminate.
Defined.

(** X3. An update never asks for the deletion of the audio blob that the
    track it returns refers to, except in one case: a new audio is
    supplied and the stored record already carries the id made for it
    ([audio-<id>-<now>], the same clock reading as an earlier update);
    then the blob just written is the one deleted. *)
Theorem updateTrack_deleted_audio S env id updates p existing track :
  ans_getTrack S id = Next (Some existing) ->
  emitted (updateTrack S env id updates p) = Some track ->
  (In (DeleteAudioFile (Track.audioFileId track))
      (calls (updateTrack S env id updates p))
   <->
   up_audioFile updates <> None /\
   TrackRecord.audioFileId existing
   = "audio-" ++ id ++ "-" ++ Js.numberToString (now_audio env)).
Proof.
  intros Hg. unfold updateTrack. unfold_rx. rewrite Hg. cbn.
  destruct (up_audioFile updates) as [audioFile|]; cbn.
  - destruct (ans_saveAudioFile S _ audioFile) as [[|]|e]; cbn.
    2: discriminate.
    2: destruct e; discriminate.
    destruct (mediaDuration env audioFile) as [d|]; cbn.
    all: destruct (up_coverImage updates) as [cover|]; cbn.
    all: try (destruct (ans_saveCoverImage S _ cover) as [[|]|e]; cbn).
    all: try (destruct e; discriminate).
    all: try (destruct (Js.truthy (TrackRecord.coverImageId existing)); cbn).
    all: destruct (ans_saveTrack S _) as [[|]|e]; cbn.
    all: try discriminate.
    all: try (destruct e; discriminate).
    all: intros [= <-]; cbn; split.
    all: try (intros [_ ->]; cbn; tauto).
    all: intros Hin; split; [discriminate|].
    all: repeat (destruct Hin as [Hin|Hin]; try discriminate);
      try contradiction.
    all: now injection Hin.
  - destruct (up_coverImage updates) as [cover|]; cbn.
    all: try (destruct (ans_saveCoverImage S _ cover) as [[|]|e]; cbn).
    all: try (destruct e; discriminate).
    all: try (destruct (Js.truthy (TrackRecord.coverImageId existing)); cbn).
    all: destruct (ans_saveTrack S _) as [[|]|e]; cbn.
    all: try discriminate.
    all: try (destruct e; discriminate).
    all: intros [= <-]; cbn; split.
    all: try (intros [Hn _]; now elim Hn).
    all: intros Hin;
      repeat (destruct Hin as [Hin|Hin]; try discriminate);
      contradiction.
Qed.

Lemma updateTrack_deleted_audio_witness :
  ~ In (DeleteAudioFile "audio-track-1000-abc1234-4000")
       (calls (updateTrack Sample.storage Sample.envLater Sample.id
                 Sample.newAudio Sample.projection)).
Proof.
  intros Hin.
  apply (updateTrack_deleted_audio Sample.storage Sample.envLater Sample.id
           Sample.newAudio Sample.projection Sample.record
           (mapRecordToTrack
              (TrackRecord.mk Sample.id "Song" "Band" None "rock" 3%Q
                 "audio-track-1000-abc1234-4000"
                 (Some "cover-track-1000-abc1234") 1001 5000))
           eq_refl eq_refl) in Hin.
  destruct Hin as [_ Hsame]. simpl in Hsame. discriminate Hsame.
Defined.

(* ================================================================== *)
(** ** updateTrack: the list and the selection *)

(** X4. After a successful update the selection follows: when the
    selected track has the id updated it becomes the track returned, and
    otherwise (another id, or no selection) it is left as it was. *)
Theorem updateTrack_selection S env id updates p track :
  emitted (updateTrack S env id updates p) = Some track ->
  (forall t, _selectedTrack p = Some t -> Track.id t = id ->
     _selectedTrack (after (updateTrack S env id updates p)) = Some track) /\
  ((forall t, _selectedTrack p = Some t -> Track.id t <> id) ->
     _selectedTrack (after (updateTrack S env id updates p))
     = _selectedTrack p).
Proof.
  intros E.
  destruct (updateTrack_success _ _ _ _ _ _ E)
    as (existing & _ & _ & _ & _ & _ & _ & _ & _ & _ & _ & _ & ->).
  unfold selectedHasId. cbn. split.
  - intros t Ht Hid. rewrite Ht, Hid, String.eqb_refl. reflexivity.
  - intros Hother. destruct (_selectedTrack p) as [t|] eqn:Ht; cbn; auto.
    destruct (String.eqb_spec (Track.id t) id) as [Heq|Hne]; cbn; auto.
    now elim (Hother t eq_refl).
Qed.

Lemma updateTrack_selection_witness :
  exists track,
    emitted (updateTrack Sample.storage Sample.envLater Sample.id
               Sample.coverOnly Sample.projection) = Some track /\
    _selectedTrack (after (updateTrack Sample.storage Sample.envLater
                             Sample.id Sample.coverOnly Sample.projection))
    = Some track.
Proof.
  eexists. split; [reflexivity|].
  apply (proj1 (updateTrack_selection Sample.storage Sample.envLater Sample.id
                  Sample.coverOnly Sample.projection _ eq_refl) Sample.track);
    reflexivity.
Defined.

Lemma updateTrack_tracks S env id updates p track :
  emitted (updateTrack S env id updates p) = Some track ->
  _tracks (after (updateTrack S env id updates p))
  = List.map (fun t => if Track.id t =? id then track else t) (_tracks p).
Proof.
  intros E.
  destruct (updateTrack_success _ _ _ _ _ _ E)
    as (existing & _ & _ & _ & _ & _ & _ & _ & _ & _ & _ & _ & ->).
  cbn. now destruct (selectedHasId _ id).
Qed.

(** X5. A successful update edits the list in place: the list keeps its
    length, the tracks of another id stay where they are, and every track
    of the id updated is replaced by the track returned. A track that is
    stored but not listed is not added: the list is then unchanged. When
    the stored record has the id asked for, the ids in the list are the
    same before and after. *)
Theorem updateTrack_in_place S env id updates p track :
  emitted (updateTrack S env id updates p) = Some track ->
  trackCount (after (updateTrack S env id updates p)) = trackCount p /\
  (forall n t, nth_error (_tracks p) n = Some t ->
     nth_error (_tracks (after (updateTrack S env id updates p))) n
     = Some (if Track.id t =? id then track else t)) /\
  ((forall t, In t (_tracks p) -> Track.id t <> id) ->
     _tracks (after (updateTrack S env id updates p)) = _tracks p) /\
  (Track.id track = id ->
     List.map Track.id (_tracks (after (updateTrack S env id updates p)))
     = List.map Track.id (_tracks p)).
Proof.
  intros E. unfold trackCount. rewrite (updateTrack_tracks _ _ _ _ _ _ E).
  split; [apply List.length_map|]. split; [|split].
  - intros n t Hn. rewrite List.nth_error_map, Hn. reflexivity.
  - intros Hnone. rewrite <- (List.map_id (_tracks p)) at 2.
    apply List.map_ext_in. intros t Ht.
    destruct (String.eqb_spec (Track.id t) id) as [Heq|]; [|reflexivity].
    now elim (Hnone t Ht).
  - intros Hid. rewrite List.map_map. apply List.map_ext. intros t.
    destruct (String.eqb_spec (Track.id t) id) as [Heq|]; [|reflexivity].
    now rewrite Hid.
Qed.

Lemma updateTrack_in_place_witness :
  trackCount (after (updateTrack Sample.storage Sample.envLater Sample.id
                       Sample.newAudio Sample.projection)) = 2%nat.
Proof.
  exact (proj1 (updateTrack_in_place Sample.storage Sample.envLater Sample.id
                  Sample.newAudio Sample.projection _ eq_refl)).
Defined.

(* ================================================================== *)
(** ** getTrackById *)

Lemma deleteTrack_tracks S id p :
  emitted (deleteTrack S id p) = true ->
  _tracks (after (deleteTrack S id p))
  = List.filter (fun t => negb (Track.id t =? id)) (_tracks p).
Proof.
  intros E. rewrite (deleteTrack_success _ _ _ E). cbn.
  now destruct (selectedHasId _ id).
Qed.

Lemma find_filter_other {A} (f g : A -> bool) l :
  (forall x, f x = true -> g x = true) ->
  List.find f (List.filter g l) = List.find f l.
Proof.
  intros Hfg. induction l as [|x l IH]; cbn; [reflexivity|].
  destruct (g x) eqn:Hg; cbn.
  - now rewrite IH.
  - destruct (f x) eqn:Hf; [|exact IH].
    rewrite (Hfg x Hf) in Hg. discriminate.
Qed.

Lemma find_filter_none {A} (f : A -> bool) l :
  List.find f (List.filter (fun x => negb (f x)) l) = None.
Proof.
  induction l as [|x l IH]; cbn; [reflexivity|].
  destruct (f x) eqn:Hf; cbn; [exact IH|]. now rewrite Hf.
Qed.

(** X6. Looking a track up in the list after an operation. After a
    successful creation the new id finds the track returned, and any
    other id finds what it found before. After a successful deletion the
    id finds nothing, and any other id finds what it found before. *)
Theorem getTrackById_after_create_delete S env p :
  (forall formData track,
     emitted (createTrack S env formData p) = Some track ->
     getTrackById (Track.id track) (after (createTrack S env formData p))
     = Some track /\
     forall other, other <> Track.id track ->
       getTrackById other (after (createTrack S env formData p))
       = getTrackById other p) /\
  (forall id,
     emitted (deleteTrack S id p) = true ->
     getTrackById id (after (deleteTrack S id p)) = None /\
     forall other, other <> id ->
       getTrackById other (after (deleteTrack S id p))
       = getTrackById other p).
Proof.
  split.
  - intros formData track E. unfold getTrackById.
    destruct (createTrack_success _ _ _ _ _ E)
      as (_ & _ & _ & _ & _ & _ & _ & ->).
    cbn. rewrite String.eqb_refl. split; [reflexivity|].
    intros other Hother.
    destruct (String.eqb_spec (Track.id track) other) as [Heq|Hne];
      [now elim Hother|reflexivity].
  - intros id E. unfold getTrackById. rewrite (deleteTrack_tracks _ _ _ E).
    split; [apply (find_filter_none (fun t => Track.id t =? id))|].
    intros other Hother. apply find_filter_other. intros t Ht.
    apply String.eqb_eq in Ht.
    destruct (String.eqb_spec (Track.id t) id) as [Heq|Hne];
      [elim Hother; now rewrite <- Ht|reflexivity].
Qed.

Lemma getTrackById_after_create_delete_witness :
  getTrackById Sample.id
    (after (deleteTrack Sample.storage Sample.id Sample.projection)) = None /\
  getTrackById "track-900-zzz"
    (after (deleteTrack Sample.storage Sample.id Sample.projection))
  = Some Sample.older.
Proof.
  destruct (proj2 (getTrackById_after_create_delete Sample.storage Sample.env
                     Sample.projection) Sample.id eq_refl) as [Hnone Hother].
  split; [exact Hnone|].
  rewrite (Hother "track-900-zzz"); [reflexivity|discriminate].
Defined.

(** X7. After a successful update of a listed track whose stored record
    has the id asked for, looking the id up in the list gives the track
    returned; a track that was not listed is still not found. *)
Theorem getTrackById_after_update S env id updates p track :
  emitted (updateTrack S env id updates p) = Some track ->
  Track.id track = id ->
  (getTrackById id p <> None ->
   getTrackById id (after (updateTrack S env id updates p)) = Some track) /\
  (getTrackById id p = None ->
   getTrackById id (after (updateTrack S env id updates p)) = None).
Proof.
  intros E Hid. unfold getTrackById. rewrite (updateTrack_tracks _ _ _ _ _ _ E).
  induction (_tracks p) as [|t l [IHsome IHnone]]; cbn.
  - split; [intros H; now elim H|reflexivity].
  - destruct (String.eqb_spec (Track.id t) id) as [Heq|Hne].
    + rewrite Hid, String.eqb_refl. split; [reflexivity|discriminate].
    + destruct (String.eqb_spec (Track.id t) id); [contradiction|].
      split; assumption.
Qed.

Lemma getTrackById_after_update_witness :
  exists track,
    emitted (updateTrack Sample.storage Sample.envLater Sample.id
               Sample.newAudio Sample.projection) = Some track /\
    getTrackById Sample.id
      (after (updateTrack Sample.storage Sample.envLater Sample.id
                Sample.newAudio Sample.projection)) = Some track.
Proof.
  eexists. split; [reflexivity|].
  apply (proj1 (getTrackById_after_update Sample.storage Sample.envLater
                  Sample.id Sample.newAudio Sample.projection _
                  eq_refl eq_refl)).
  simpl. discriminate.
Defined.

(* ================================================================== *)
(** ** loadTracks and the constructor *)

(** The sort keeps, among the tracks of one date, the order they came in. *)
Lemma insert_same_date d x l :
  List.filter (fun t => Track.createdAt t =? d)%Z
    (Js.insert compareCreatedAt x l)
  = List.filter (fun t => Track.createdAt t =? d)%Z (x :: l).
Proof.
  induction l as [|y l IH]; cbn; [reflexivity|].
  unfold compareCreatedAt at 1.
  destruct (Z.ltb_spec 0 (Track.createdAt y - Track.createdAt x)) as [Hlt|Hge];
    [|reflexivity].
  cbn. rewrite IH. cbn.
  destruct (Z.eqb_spec (Track.createdAt y) d) as [Hy|Hy];
    destruct (Z.eqb_spec (Track.createdAt x) d) as [Hx|Hx];
    try reflexivity.
  lia.
Qed.

Lemma sort_same_date d l :
  List.filter (fun t => Track.createdAt t =? d)%Z
    (Js.sort compareCreatedAt l)
  = List.filter (fun t => Track.createdAt t =? d)%Z l.
Proof.
  induction l as [|x l IH]; cbn; [reflexivity|].
  rewrite insert_same_date. cbn. now rewrite IH.
Qed.

(** X8. A reload that the storage answers installs the stored records,
    all of them and each once, newest first; records of the same creation
    date keep the order the storage gave them. The projection is in the
    [success] state, [trackCount] is the number of records, and the
    selection and the last error message are left as they were. *)
Theorem loadTracks_installs_records S p records :
  ans_getAllTracks S = Next records ->
  Permutation (_tracks (after (loadTracks S p)))
    (List.map mapRecordToTrack records) /\
  newestFirstWeak (_tracks (after (loadTracks S p))) /\
  (forall d,
     List.filter (fun t => Track.createdAt t =? d)%Z
       (_tracks (after (loadTracks S p)))
     = List.filter (fun t => Track.createdAt t =? d)%Z
         (List.map mapRecordToTrack records)) /\
  trackCount (after (loadTracks S p)) = List.length records /\
  _state (after (loadTracks S p)) = success /\
  _selectedTrack (after (loadTracks S p)) = _selectedTrack p /\
  _error (after (loadTracks S p)) = _error p /\
  calls (loadTracks S p) = [GetAllTracks].
Proof.
  intros H. unfold trackCount. rewrite loadTracks_after, H. cbn.
  split; [apply sort_perm|]. split; [apply sort_newestFirstWeak|].
  split; [intros d; apply sort_same_date|].
  split.
  - rewrite (Permutation_length (sort_perm compareCreatedAt _)).
    apply List.length_map.
  - repeat split.
Qed.

Lemma loadTracks_installs_records_witness :
  trackCount (after (construct Sample.storage)) = 1%nat /\
  _state (after (construct Sample.storage)) = success.
Proof.
  destruct (loadTracks_installs_records Sample.storage initial [Sample.record]
              eq_refl) as (_ & _ & _ & Hcount & Hstate & _).
  exact (conj Hcount Hstate).
Defined.

(** X9. A reload that the storage fails leaves the list and the
    selection as they were and records the error: the state is [error],
    the message is the one of the error, or [An unknown error occurred]
    for a value that is not an [Error]. *)
Theorem loadTracks_failure S p e :
  ans_getAllTracks S = Err e ->
  _tracks (after (loadTracks S p)) = _tracks p /\
  _selectedTrack (after (loadTracks S p)) = _selectedTrack p /\
  _state (after (loadTracks S p)) = error /\
  _error (after (loadTracks S p)) = Some (messageOf e) /\
  hasError (after (loadTracks S p)) = true.
Proof.
  intros H. rewrite loadTracks_after, H. destruct e; cbn; auto.
Qed.

Lemma loadTracks_failure_witness :
  _tracks (after (loadTracks
                    (mkStorage (Err Js.NonError) Sample.lookup
                       (fun _ _ => Next true) (fun _ _ => Next true)
                       (fun _ => Next true) (fun _ => Next true)
                       (fun _ => Next true) (fun _ => Next true))
                    Sample.projection))
  = [Sample.track; Sample.older] /\
  _error (after (loadTracks
                   (mkStorage (Err Js.NonError) Sample.lookup
                      (fun _ _ => Next true) (fun _ _ => Next true)
                      (fun _ => Next true) (fun _ => Next true)
                      (fun _ => Next true) (fun _ => Next true))
                   Sample.projection))
  = Some "An unknown error occurred".
Proof.
  destruct (loadTracks_failure
              (mkStorage (Err Js.NonError) Sample.lookup
                 (fun _ _ => Next true) (fun _ _ => Next true)
                 (fun _ => Next true) (fun _ => Next true)
                 (fun _ => Next true) (fun _ => Next true))
              Sample.projection Js.NonError eq_refl)
    as (Ht & _ & _ & He & _).
  exact (conj Ht He).
Defined.

(* ================================================================== *)
(** ** The operation state *)

Lemma handleError_after e p :
  handleError e p
  = mkProjection (_tracks p) error (Some (messageOf e)) (_selectedTrack p).
Proof.
  destruct e; reflexivity.
Qed.

(** X10. The state tells how the last operation ended: after
    [createTrack], [updateTrack] or [deleteTrack] the projection is in the
    [success] state exactly when a track (or [true]) was emitted and in
    the [error] state, with [hasError], exactly when [null] (or [false])
    was; it is never left [loading]. *)
Theorem state_tells_outcome S env p :
  (forall formData,
     (_state (after (createTrack S env formData p)) = success <->
      emitted (createTrack S env formData p) <> None) /\
     (hasError (after (createTrack S env formData p)) = true <->
      emitted (createTrack S env formData p) = None) /\
     isLoading (after (createTrack S env formData p)) = false) /\
  (forall id updates,
     (_state (after (updateTrack S env id updates p)) = success <->
      emitted (updateTrack S env id updates p) <> None) /\
     (hasError (after (updateTrack S env id updates p)) = true <->
      emitted (updateTrack S env id updates p) = None) /\
     isLoading (after (updateTrack S env id updates p)) = false) /\
  (forall id,
     (_state (after (deleteTrack S id p)) = success <->
      emitted (deleteTrack S id p) = true) /\
     (hasError (after (deleteTrack S id p)) = true <->
      emitted (deleteTrack S id p) = false) /\
     isLoading (after (deleteTrack S id p)) = false).
Proof.
  split; [|split].
  - intros formData.
    destruct (emitted (createTrack S env formData p)) as [track|] eqn:E.
    + destruct (createTrack_success _ _ _ _ _ E)
        as (_ & _ & _ & _ & _ & _ & _ & ->).
      cbn. repeat split; congruence.
    + destruct (createTrack_failure _ _ _ _ E) as [e ->].
      rewrite handleError_after. cbn. repeat split; congruence.
  - intros id updates.
    destruct (emitted (updateTrack S env id updates p)) as [track|] eqn:E.
    + destruct (updateTrack_success _ _ _ _ _ _ E)
        as (existing & _ & _ & _ & _ & _ & _ & _ & _ & _ & _ & _ & ->).
      cbn. repeat split; congruence.
    + destruct (updateTrack_failure _ _ _ _ _ E) as [e ->].
      rewrite handleError_after. cbn. repeat split; congruence.
  - intros id.
    destruct (emitted (deleteTrack S id p)) eqn:E.
    + rewrite (deleteTrack_success _ _ _ E). cbn. repeat split; congruence.
    + destruct (deleteTrack_failure _ _ _ E) as [e ->].
      rewrite handleError_after. cbn. repeat split; congruence.
Qed.

Lemma state_tells_outcome_witness :
  hasError (after (createTrack Sample.storageAudioWriteFalse Sample.env
                     Sample.form Sample.projection)) = true.
Proof.
  apply (proj1 (proj2 (proj1 (state_tells_outcome
                                Sample.storageAudioWriteFalse Sample.env
                                Sample.projection) Sample.form))).
  reflexivity.
Defined.

(** X11. The error message outlives the error: an operation that
    succeeds sets the state to [success], so that [hasError] is false, but
    leaves the message of an earlier failure in place. Only [clearError]
    removes it, and it touches neither the list nor the selection. *)
Theorem error_message_is_kept S env p :
  (forall formData track,
     emitted (createTrack S env formData p) = Some track ->
     _error (after (createTrack S env formData p)) = _error p /\
     hasError (after (createTrack S env formData p)) = false) /\
  (forall id updates track,
     emitted (updateTrack S env id updates p) = Some track ->
     _error (after (updateTrack S env id updates p)) = _error p /\
     hasError (after (updateTrack S env id updates p)) = false) /\
  (forall id,
     emitted (deleteTrack S id p) = true ->
     _error (after (deleteTrack S id p)) = _error p /\
     hasError (after (deleteTrack S id p)) = false) /\
  (_error (clearError p) = None /\
   _state (clearError p) = idle /\
   _tracks (clearError p) = _tracks p /\
   _selectedTrack (clearError p) = _selectedTrack p).
Proof.
  split; [|split; [|split]].
  - intros formData track E.
    destruct (createTrack_success _ _ _ _ _ E)
      as (_ & _ & _ & _ & _ & _ & _ & ->). split; reflexivity.
  - intros id updates track E.
    destruct (updateTrack_success _ _ _ _ _ _ E)
      as (existing & _ & _ & _ & _ & _ & _ & _ & _ & _ & _ & _ & ->).
    cbn. destruct (selectedHasId _ id); split; reflexivity.
  - intros id E. rewrite (deleteTrack_success _ _ _ E). cbn.
    destruct (selectedHasId _ id); split; reflexivity.
  - repeat split.
Qed.

Lemma error_message_is_kept_witness :
  _error (after (deleteTrack Sample.storage Sample.id
                   (after (deleteTrack Sample.storage "track-1-none"
                             Sample.projection))))
  = Some "Track not found" /\
  hasError (after (deleteTrack Sample.storage Sample.id
                     (after (deleteTrack Sample.storage "track-1-none"
                               Sample.projection)))) = false.
Proof.
  apply (proj1 (proj2 (proj2 (error_message_is_kept Sample.storage Sample.env
                                (after (deleteTrack Sample.storage
                                          "track-1-none" Sample.projection)))))
           Sample.id).
  reflexivity.
Defined.

(* ================================================================== *)
(** ** generateId *)

Lemma numberToString_inj a b :
  Js.numberToString a = Js.numberToString b -> a = b.
Proof.
  unfold Js.numberToString. intros H.
  assert (forall z, NilZero.int_of_string (NilZero.string_of_int (Z.to_int z))
                    = Some (Z.to_int z)) as Hisi.
  { intros z. apply NilZero.isi; intros Hz; pose proof Hz as Hz';
      apply (f_equal Z.of_int) in Hz; rewrite DecimalZ.of_to in Hz;
      cbn in Hz; subst z; discriminate Hz'. }
  apply (f_equal NilZero.int_of_string) in H. rewrite !Hisi in H.
  injection H as H. now apply DecimalZ.to_int_inj.
Qed.

(** X12. Two ids from [generateId] are equal only when both the clock
    reading and the random digits are: with a clock that is not before the
    epoch and digits without dash, the id determines both. Such an id
    has the shape [track-<now>-<digits>]. *)
Theorem generateId_injective env1 env2 :
  0 <= now_id env1 -> 0 <= now_id env2 ->
  noDash (random36 env1) = true -> noDash (random36 env2) = true ->
  generated (generateId env1) /\
  (generateId env1 = generateId env2 ->
   now_id env1 = now_id env2 /\ random36 env1 = random36 env2).
Proof.
  intros H1 H2 Hr1 Hr2. split.
  - exists (now_id env1), (random36 env1). auto.
  - unfold generateId. intros H.
    apply (append_cancel_l "track-") in H.
    apply split_at_dash in H as [Hn Hr]; auto using noDash_numberToString.
    split; [now apply numberToString_inj|exact Hr].
Qed.

Lemma generateId_injective_witness :
  generated (generateId Sample.env) /\
  (generateId Sample.env = generateId Sample.envLater ->
   now_id Sample.env = now_id Sample.envLater /\
   random36 Sample.env = random36 Sample.envLater).
Proof.
  apply generateId_injective; simpl; try lia; reflexivity.
Defined.

(* ================================================================== *)
(** ** What the operations ask of the storage *)

(** X13. [createTrack] only writes: at most three calls, all of them
    writes, the audio first. [deleteTrack] never writes: it looks the
    record up and, beyond that, only deletes. [updateTrack] looks the
    record up first, never deletes the record and never lists the records,
    and writes the record at most once, as its last call. *)
Theorem storage_footprint S env p :
  (forall formData,
     forallb isSave (calls (createTrack S env formData p)) = true /\
     (List.length (calls (createTrack S env formData p)) <= 3)%nat /\
     List.hd_error (calls (createTrack S env formData p))
     = Some (SaveAudioFile ("audio-" ++ generateId env)
               (fd_audioFile formData))) /\
  (forall id,
     forallb (fun c => negb (isSave c)) (calls (deleteTrack S id p)) = true /\
     List.hd_error (calls (deleteTrack S id p)) = Some (GetTrack id)) /\
  (forall id updates,
     List.hd_error (calls (updateTrack S env id updates p))
     = Some (GetTrack id) /\
     (forall c, In c (calls (updateTrack S env id updates p)) ->
        c = GetTrack id \/ isSave c = true \/ isBlobDeletion c = true) /\
     (forall record before rest,
        calls (updateTrack S env id updates p)
        = (before ++ SaveTrack record :: rest)%list ->
        rest = [])).
Proof.
  split; [|split].
  - intros formData. unfold createTrack. unfold_rx.
    destruct (ans_saveAudioFile S _ _) as [[|]|e]; cbn; auto.
    destruct (mediaDuration env (fd_audioFile formData)) as [d|];
      destruct (fd_coverImage formData) as [cover|]; cbn.
    all: try (destruct (ans_saveCoverImage S _ cover) as [b|e]; cbn).
    all: repeat split; auto.
  - intros id. unfold deleteTrack. unfold_rx.
    destruct (ans_getTrack S id) as [[track|]|e]; cbn; auto.
    destruct (Js.truthy (TrackRecord.coverImageId track)); cbn; auto.
  - intros id updates. unfold updateTrack. unfold_rx.
    destruct (ans_getTrack S id) as [[existing|]|e]; cbn.
    2,3: split; [reflexivity|]; split;
      [ intros c [<-|[]]; auto
      | intros record [|x before] rest; cbn; intros [=];
        destruct before; discriminate ].
    destruct (up_audioFile updates) as [audioFile|]; cbn.
    1: destruct (ans_saveAudioFile S _ audioFile) as [[|]|e]; cbn.
    1: destruct (mediaDuration env audioFile) as [d|]; cbn.
    all: destruct (up_coverImage updates) as [cover|]; cbn.
    all: try (destruct (ans_saveCoverImage S _ cover) as [b|e]; cbn).
    all: try (destruct (Js.truthy (TrackRecord.coverImageId existing)); cbn).
    all: split; [reflexivity|]; split.
    all: try (intros c Hin;
              repeat match goal with
                     | H : _ \/ _ |- _ =>
                         destruct H as [H|H]; [subst c; cbn; auto|]
                     end;
              contradiction).
    all: intros record before rest Heq;
      repeat (destruct before as [|? before]; cbn in Heq;
              [ try discriminate; injection Heq as _ Heq; try discriminate;
                try (now injection Heq); congruence
              | injection Heq as _ Heq ]);
      try discriminate; destruct before; discriminate.
Qed.

Lemma storage_footprint_witness :
  DeleteAudioFile "audio-track-1000-abc1234" = GetTrack Sample.id \/
  isSave (DeleteAudioFile "audio-track-1000-abc1234") = true \/
  isBlobDeletion (DeleteAudioFile "audio-track-1000-abc1234") = true.
Proof.
  apply (proj1 (proj2 (proj2 (proj2 (storage_footprint Sample.storage
                                       Sample.envLater Sample.projection))
                         Sample.id Sample.newAudio))).
  simpl. tauto.
Defined.

(* ================================================================== *)
(** ** Creation followed by deletion *)

(** X14. Deleting a track right after creating it gives the list back:
    when the creation succeeds with an id that no listed track has, and the
    deletion of that id succeeds, the list is the one before the creation.
    A selection made before is kept, unless it has that id. *)
Theorem create_then_delete S env formData p S' track :
  emitted (createTrack S env formData p) = Some track ->
  (forall t, In t (_tracks p) -> Track.id t <> Track.id track) ->
  emitted (deleteTrack S' (Track.id track)
             (after (createTrack S env formData p))) = true ->
  _tracks (after (deleteTrack S' (Track.id track)
                    (after (createTrack S env formData p)))) = _tracks p /\
  ((forall t, _selectedTrack p = Some t -> Track.id t <> Track.id track) ->
   _selectedTrack (after (deleteTrack S' (Track.id track)
                            (after (createTrack S env formData p))))
   = _selectedTrack p).
Proof.
  intros Ec Hfresh Ed. rewrite (deleteTrack_success _ _ _ Ed).
  destruct (createTrack_success _ _ _ _ _ Ec)
    as (_ & _ & _ & _ & _ & _ & _ & ->).
  assert (List.filter (fun t => negb (Track.id t =? Track.id track))
            (_tracks p) = _tracks p) as Hkeep.
  { induction (_tracks p) as [|t l IH]; cbn; [reflexivity|].
    destruct (String.eqb_spec (Track.id t) (Track.id track)) as [Heq|Hne].
    - now elim (Hfresh t (or_introl eq_refl)).
    - cbn. rewrite IH; [reflexivity|]. intros u Hu. apply Hfresh. now right. }
  unfold selectedHasId. cbn. rewrite String.eqb_refl. cbn. rewrite Hkeep.
  split.
  - now destruct (_selectedTrack p) as [t|]; [destruct (Track.id t =? _)|].
  - intros Hsel. destruct (_selectedTrack p) as [t|] eqn:Ht; cbn; auto.
    destruct (String.eqb_spec (Track.id t) (Track.id track)) as [Heq|Hne];
      cbn; auto.
    now elim (Hsel t eq_refl).
Qed.

Lemma create_then_delete_witness :
  _tracks (after (deleteTrack
                    (mkStorage (Next []) (fun _ => Next (Some Sample.record))
                       (fun _ _ => Next true) (fun _ _ => Next true)
                       (fun _ => Next true) (fun _ => Next true)
                       (fun _ => Next true) (fun _ => Next true))
                    "track-4999-xyz9876"
                    (after (createTrack Sample.storage Sample.envLater
                              Sample.form Sample.projection))))
  = [Sample.track; Sample.older].
Proof.
  apply (create_then_delete Sample.storage Sample.envLater Sample.form
           Sample.projection
           (mkStorage (Next []) (fun _ => Next (Some Sample.record))
              (fun _ _ => Next true) (fun _ _ => Next true)
              (fun _ => Next true) (fun _ => Next true)
              (fun _ => Next true) (fun _ => Next true))
           (mapRecordToTrack
              (TrackRecord.mk "track-4999-xyz9876" "Song" "Band" None "rock"
                 3%Q "audio-track-4999-xyz9876" None 5000 5000))).
  - reflexivity.
  - simpl. intros t [<-|[<-|[]]]; simpl; discriminate.
  - reflexivity.
Defined.

(* ================================================================== *)
(** ** Titles and artists *)

Section StripFacts.
Variable w1 : ascii -> bool.
Variable w2 : ascii -> ascii -> bool.
Variable w3 : ascii -> ascii -> ascii -> bool.

Let strip := Js.strip w1 w2 w3.
Let starts := Js.starts w1 w2 w3.

(** What is stripped is a prefix, and what is left begins with none of
    the code points. *)
Lemma strip_spec n s :
  (String.length s <= n)%nat ->
  starts (strip s) = false /\ exists pre, s = pre ++ strip s.
Proof.
  subst strip starts. revert s.
  induction n as [|n IH]; intros s Hn.
  - destruct s; [|cbn in Hn; lia]. split; [reflexivity|now exists EmptyString].
  - destruct s as [|c1 s1]; [split; [reflexivity|now exists EmptyString]|].
    cbn in Hn. cbn [Js.strip].
    destruct (w1 c1) eqn:H1.
    { destruct (IH s1 ltac:(lia)) as [Hc [pre Hp]]. split; [exact Hc|].
      exists (String c1 pre). cbn. now rewrite <- Hp. }
    destruct s1 as [|c2 s2].
    { split; [cbn; now rewrite H1|now exists EmptyString]. }
    cbn in Hn. destruct (w2 c1 c2) eqn:H2.
    { destruct (IH s2 ltac:(lia)) as [Hc [pre Hp]]. split; [exact Hc|].
      exists (String c1 (String c2 pre)). cbn. now rewrite <- Hp. }
    destruct s2 as [|c3 s3].
    { split; [cbn; now rewrite H1, H2|now exists EmptyString]. }
    cbn in Hn. destruct (w3 c1 c2 c3) eqn:H3.
    { destruct (IH s3 ltac:(lia)) as [Hc [pre Hp]]. split; [exact Hc|].
      exists (String c1 (String c2 (String c3 pre))). cbn. now rewrite <- Hp. }
    split; [cbn; now rewrite H1, H2, H3|now exists EmptyString].
Qed.

Lemma strip_clean s : starts (strip s) = false.
Proof.
  exact (proj1 (strip_spec (String.length s) s (Nat.le_refl _))).
Qed.

Lemma strip_suffix s : exists pre, s = pre ++ strip s.
Proof.
  exact (proj2 (strip_spec (String.length s) s (Nat.le_refl _))).
Qed.

Lemma strip_id s : starts s = false -> strip s = s.
Proof.
  subst strip starts.
  destruct s as [|c1 [|c2 [|c3 s3]]]; cbn; try reflexivity.
  - now intros ->%orb_false_iff%proj1.
  - intros H. apply orb_false_iff in H as [-> H].
    apply orb_false_iff in H as [-> _]. reflexivity.
  - intros H. apply orb_false_iff in H as [-> H].
    apply orb_false_iff in H as [-> ->]. reflexivity.
Qed.

(** A string that begins with none of the code points has no prefix
    that does. *)
Lemma starts_prefix x y : starts (x ++ y) = false -> starts x = false.
Proof.
  subst starts.
  destruct x as [|c1 [|c2 [|c3 x3]]]; cbn; try reflexivity.
  - intros H. apply orb_false_iff in H as [-> _]. reflexivity.
  - intros H. apply orb_false_iff in H as [-> H]. cbn.
    destruct y; [exact H|]. apply orb_false_iff in H as [-> _]. reflexivity.
  - auto.
Qed.

End StripFacts.

Lemma revAppend_revAppend s a b :
  Js.revAppend (Js.revAppend s a) b = Js.revAppend a (s ++ b).
Proof.
  revert a b. induction s as [|c s IH]; intros a b; cbn; [reflexivity|].
  now rewrite IH.
Qed.

Lemma reverse_involutive s : Js.reverse (Js.reverse s) = s.
Proof.
  unfold Js.reverse. rewrite revAppend_revAppend. cbn. apply append_empty_r.
Qed.

Lemma revAppend_app s acc : Js.revAppend s acc = Js.reverse s ++ acc.
Proof.
  unfold Js.reverse. revert acc.
  induction s as [|c s IH]; intros acc; cbn; [reflexivity|].
  rewrite (IH (String c acc)), (IH (String c EmptyString)).
  now rewrite append_assoc.
Qed.

Lemma reverse_cons c s :
  Js.reverse (String c s) = Js.reverse s ++ String c EmptyString.
Proof.
  unfold Js.reverse at 1. cbn. apply revAppend_app.
Qed.

Lemma reverse_app a b : Js.reverse (a ++ b) = Js.reverse b ++ Js.reverse a.
Proof.
  induction a as [|c a IH].
  - cbn. now rewrite append_empty_r.
  - change (String c a ++ b) with (String c (a ++ b)).
    rewrite !reverse_cons, IH. apply append_assoc.
Qed.

Lemma trimStart_clean s : startsWithWhiteSpace (Js.trimStart s) = false.
Proof.
  apply strip_clean.
Qed.

Lemma trimEnd_clean s : endsWithWhiteSpace (Js.trimEnd s) = false.
Proof.
  unfold endsWithWhiteSpace, Js.trimEnd. rewrite reverse_involutive.
  apply strip_clean.
Qed.

(** [trimEnd] leaves a prefix. *)
Lemma trimEnd_prefix s : exists rest, s = Js.trimEnd s ++ rest.
Proof.
  unfold Js.trimEnd.
  destruct (strip_suffix Js.isWhiteSpace1
              (fun c2 c1 => Js.isWhiteSpace2 c1 c2)
              (fun c3 c2 c1 => Js.isWhiteSpace3 c1 c2 c3)
              (Js.reverse s)) as [pre Hpre].
  exists (Js.reverse pre).
  rewrite <- reverse_app, <- Hpre. symmetry. apply reverse_involutive.
Qed.

Lemma trimEnd_start s :
  startsWithWhiteSpace s = false ->
  startsWithWhiteSpace (Js.trimEnd s) = false.
Proof.
  intros H. destruct (trimEnd_prefix s) as [rest Hrest].
  rewrite Hrest in H. exact (starts_prefix _ _ _ _ _ H).
Qed.

Lemma trimStart_id s :
  startsWithWhiteSpace s = false -> Js.trimStart s = s.
Proof.
  apply strip_id.
Qed.

Lemma trimEnd_id s :
  endsWithWhiteSpace s = false -> Js.trimEnd s = s.
Proof.
  intros H. unfold Js.trimEnd. rewrite (strip_id _ _ _ _ H).
  apply reverse_involutive.
Qed.

Lemma trim_allWhiteSpace s :
  allWhiteSpace s = true -> Js.trim s = EmptyString.
Proof.
  unfold allWhiteSpace, Js.trim.
  destruct (Js.trimStart s); [reflexivity|discriminate].
Qed.

(** X15. The title and the artist of a created track are the ones of the
    form without the white space around them (any ECMAScript white space or
    line terminator code point): they neither begin nor end with one, and
    storing them again would store them unchanged. Nothing is refused: a
    title of white space only is stored as the empty string. *)
Theorem createTrack_trims S env formData p track :
  emitted (createTrack S env formData p) = Some track ->
  Track.title track = Js.trim (fd_title formData) /\
  Track.artist track = Js.trim (fd_artist formData) /\
  startsWithWhiteSpace (Track.title track) = false /\
  endsWithWhiteSpace (Track.title track) = false /\
  startsWithWhiteSpace (Track.artist track) = false /\
  endsWithWhiteSpace (Track.artist track) = false /\
  Js.trim (Track.title track) = Track.title track /\
  Js.trim (Track.artist track) = Track.artist track /\
  (allWhiteSpace (fd_title formData) = true ->
   Track.title track = EmptyString).
Proof.
  intros E.
  assert (Track.title track = Js.trim (fd_title formData) /\
          Track.artist track = Js.trim (fd_artist formData)) as [-> ->].
  { revert E. unfold createTrack. unfold_rx.
    destruct (ans_saveAudioFile S _ _) as [[|]|e]; cbn.
    2: discriminate.
    2: destruct e; discriminate.
    destruct (mediaDuration env (fd_audioFile formData)) as [d|];
      destruct (fd_coverImage formData) as [cover|]; cbn.
    all: try (destruct (ans_saveCoverImage S _ cover) as [[|]|e]; cbn).
    all: try (destruct e; discriminate).
    all: destruct (ans_saveTrack S _) as [[|]|e]; cbn.
    all: try discriminate.
    all: try (destruct e; discriminate).
    all: intros [= <-]; cbn; split; reflexivity. }
  assert (forall s, startsWithWhiteSpace (Js.trim s) = false) as Hstart
    by (intros s; apply trimEnd_start, trimStart_clean).
  assert (forall s, endsWithWhiteSpace (Js.trim s) = false) as Hend
    by (intros s; apply trimEnd_clean).
  assert (forall s, Js.trim (Js.trim s) = Js.trim s) as Hidem.
  { intros s. unfold Js.trim at 1.
    rewrite (trimStart_id _ (Hstart s)). apply trimEnd_id, Hend. }
  repeat split; auto using trim_allWhiteSpace.
Qed.

Lemma createTrack_trims_witness :
  exists track,
    emitted (createTrack Sample.storage Sample.env Sample.formSpaced initial)
    = Some track /\
    Track.title track = "Song" /\
    Track.artist track = "Band".
Proof.
  eexists. split; [reflexivity|].
  destruct (createTrack_trims Sample.storage Sample.env Sample.formSpaced
              initial _ eq_refl) as (Ht & Ha & _).
  exact (conj Ht Ha).
Defined.

(** X16. A successful update merges the text fields whatever blobs it
    replaces: a field that is supplied is stored trimmed, a field that is
    not keeps its value. A supplied title of white space only does not
    fall back on the old title: the title becomes the empty string. *)
Theorem updateTrack_merges_fields S env id updates p existing track :
  ans_getTrack S id = Next (Some existing) ->
  emitted (updateTrack S env id updates p) = Some track ->
  (forall title, up_title updates = Some title ->
     Track.title track = Js.trim title /\
     (allWhiteSpace title = true -> Track.title track = EmptyString)) /\
  (up_title updates = None ->
     Track.title track = TrackRecord.title existing) /\
  (forall artist, up_artist updates = Some artist ->
     Track.artist track = Js.trim artist) /\
  (up_artist updates = None ->
     Track.artist track = TrackRecord.artist existing) /\
  (forall description, up_description updates = Some description ->
     Track.description track = Some (Js.trim description)) /\
  (up_description updates = None ->
     Track.description track = TrackRecord.description existing) /\
  (forall category, up_category updates = Some category ->
     Track.category track = category) /\
  (up_category updates = None ->
     Track.category track = TrackRecord.category existing).
Proof.
  intros Hg E.
  destruct (updateTrack_success _ _ _ _ _ _ E)
    as (existing' & Hg' & _ & _ & _ & Ht & Ha & Hd & Hc & _).
  rewrite Hg in Hg'. injection Hg' as <-.
  rewrite Ht, Ha, Hd, Hc.
  repeat split; intros; repeat match goal with H : _ = _ |- _ => rewrite H end;
    cbn; auto using trim_allWhiteSpace.
Qed.

Lemma updateTrack_merges_fields_witness :
  exists track,
    emitted (updateTrack Sample.storage Sample.envLater Sample.id
               (mkUpdates (Some (Sample.nbsp ++ " ")) None None (Some "jazz")
                  None None)
               Sample.projection) = Some track /\
    Track.title track = EmptyString /\
    Track.artist track = "Band" /\
    Track.category track = "jazz".
Proof.
  eexists. split; [reflexivity|].
  destruct (updateTrack_merges_fields Sample.storage Sample.envLater Sample.id
              (mkUpdates (Some (Sample.nbsp ++ " ")) None None (Some "jazz")
                 None None)
              Sample.projection Sample.record _ eq_refl eq_refl)
    as (Ht & _ & _ & Ha & _ & _ & Hc & _).
  split; [exact (proj2 (Ht (Sample.nbsp ++ " ") eq_refl) eq_refl)|].
  split; [exact (Ha eq_refl)|exact (Hc "jazz" eq_refl)].
Defined.

(* ================================================================== *)
(** ** The message of a failed creation *)

(** X17. A creation fails for one of four reasons, and the message
    recorded tells which: the audio write reported [false] ([Failed to
    save audio file]), the record write reported [false] ([Failed to save
    track]), or the audio, cover or record write errored (the message of
    that error, [An unknown error occurred] when it is not an [Error]). *)
Theorem createTrack_error_message S env formData p :
  emitted (createTrack S env formData p) = None ->
  exists e,
    _error (after (createTrack S env formData p)) = Some (messageOf e) /\
    ((ans_saveAudioFile S ("audio-" ++ generateId env) (fd_audioFile formData)
      = Next false /\ e = Js.Error "Failed to save audio file") \/
     ans_saveAudioFile S ("audio-" ++ generateId env) (fd_audioFile formData)
     = Err e \/
     (exists cover,
        fd_coverImage formData = Some cover /\
        ans_saveCoverImage S ("cover-" ++ generateId env) cover = Err e) \/
     (exists record,
        In (SaveTrack record) (calls (createTrack S env formData p)) /\
        (ans_saveTrack S record = Next false /\
         e = Js.Error "Failed to save track" \/
         ans_saveTrack S record = Err e))).
Proof.
  unfold createTrack. unfold_rx.
  destruct (ans_saveAudioFile S _ _) as [[|]|e] eqn:Ea; cbn.
  2: intros _; exists (Js.Error "Failed to save audio file");
    split; [reflexivity|]; left; split; reflexivity.
  2: intros _; exists e; split; [now destruct e|]; right; left; reflexivity.
  destruct (mediaDuration env (fd_audioFile formData)) as [d|];
    destruct (fd_coverImage formData) as [cover|]; cbn.
  all: try (destruct (ans_saveCoverImage S _ cover) as [b|e] eqn:Ec; cbn).
  all: try (intros _; exists e; split; [now destruct e|];
            right; right; left; exists cover; split;
            [reflexivity|exact Ec]).
  all: destruct (ans_saveTrack S _) as [[|]|e] eqn:Et; cbn.
  all: try discriminate.
  all: intros _.
  all: first
    [ exists (Js.Error "Failed to save track"); split; [reflexivity|];
      right; right; right; eexists; split;
      [ cbn; auto | left; split; [exact Et|reflexivity] ]
    | exists e; split; [now destruct e|];
      right; right; right; eexists; split;
      [ cbn; auto | right; exact Et ] ].
Qed.

Lemma createTrack_error_message_witness :
  exists e,
    _error (after (createTrack Sample.storageCoverWriteError Sample.env
                     Sample.formWithCover initial)) = Some (messageOf e) /\
    messageOf e = "quota".
Proof.
  destruct (createTrack_error_message Sample.storageCoverWriteError Sample.env
              Sample.formWithCover initial eq_refl) as (e & He & _).
  exists e. split; [exact He|].
  simpl in He. injection He as He. symmetry. exact He.
Defined.

(* ================================================================== *)
(** ** Reading a track back by id *)

(** X18. [getTrackById$] asks the storage for the record and for nothing
    else, leaves an error of the storage uncaught, and emits [null] for a
    missing record. Reading back what was written: when the storage
    returns, for the id, the record that a successful [createTrack] or
    [updateTrack] wrote, [getTrackById$] emits the track that operation
    returned. *)
Theorem getTrackById_reads_back S env p S' :
  (forall id,
     fst (getTrackById_ S' id) = [GetTrack id] /\
     (forall e, ans_getTrack S' id = Err e ->
        snd (getTrackById_ S' id) = Err e) /\
     (ans_getTrack S' id = Next None ->
        snd (getTrackById_ S' id) = Next None)) /\
  (forall formData track record,
     emitted (createTrack S env formData p) = Some track ->
     In (SaveTrack record) (calls (createTrack S env formData p)) ->
     ans_getTrack S' (Track.id track) = Next (Some record) ->
     snd (getTrackById_ S' (Track.id track)) = Next (Some track)) /\
  (forall id updates track record,
     emitted (updateTrack S env id updates p) = Some track ->
     In (SaveTrack record) (calls (updateTrack S env id updates p)) ->
     ans_getTrack S' id = Next (Some record) ->
     snd (getTrackById_ S' id) = Next (Some track)).
Proof.
  split; [|split].
  - intros id. unfold getTrackById_. unfold_rx. cbn.
    repeat split; intros; now match goal with H : _ = _ |- _ => rewrite H end.
  - intros formData track record E Hin Hg.
    unfold getTrackById_. unfold_rx. cbn. rewrite Hg. cbn.
    revert E Hin. unfold createTrack. unfold_rx.
    destruct (ans_saveAudioFile S _ _) as [[|]|e]; cbn.
    2: discriminate.
    2: destruct e; discriminate.
    destruct (mediaDuration env (fd_audioFile formData)) as [d|];
      destruct (fd_coverImage formData) as [cover|]; cbn.
    all: try (destruct (ans_saveCoverImage S _ cover) as [[|]|e]; cbn).
    all: try (destruct e; discriminate).
    all: destruct (ans_saveTrack S _) as [[|]|e]; cbn.
    all: try discriminate.
    all: try (destruct e; discriminate).
    all: intros [= <-] Hin.
    all: repeat match goal with
                | H : _ \/ _ |- _ => destruct H as [H|H]; try discriminate
                end; try contradiction.
    all: now match goal with H : SaveTrack _ = SaveTrack _ |- _ =>
               injection H as <- end.
  - intros id updates track record E Hin Hg.
    unfold getTrackById_. unfold_rx. cbn. rewrite Hg. cbn.
    revert E Hin. unfold updateTrack. unfold_rx.
    destruct (ans_getTrack S id) as [[existing|]|e]; cbn.
    2: discriminate.
    2: destruct e; discriminate.
    destruct (up_audioFile updates) as [audioFile|]; cbn.
    1: destruct (ans_saveAudioFile S _ audioFile) as [[|]|e]; cbn.
    2: discriminate.
    2: destruct e; discriminate.
    1: destruct (mediaDuration env audioFile) as [d|]; cbn.
    all: destruct (up_coverImage updates) as [cover|]; cbn.
    all: try (destruct (ans_saveCoverImage S _ cover) as [[|]|e]; cbn).
    all: try (destruct e; discriminate).
    all: try (destruct (Js.truthy (TrackRecord.coverImageId existing)); cbn).
    all: destruct (ans_saveTrack S _) as [[|]|e]; cbn.
    all: try discriminate.
    all: try (destruct e; discriminate).
    all: intros [= <-] Hin.
    all: repeat match goal with
                | H : _ \/ _ |- _ => destruct H as [H|H]; try discriminate
                end; try contradiction.
    all: now match goal with H : SaveTrack _ = SaveTrack _ |- _ =>
               injection H as <- end.
Qed.

Lemma getTrackById_reads_back_witness :
  snd (getTrackById_
         (mkStorage (Next [])
            (fun _ =>
               Next (Some (TrackRecord.mk "track-4999-xyz9876" "Song" "Band"
                             None "rock" 3%Q "audio-track-4999-xyz9876" None
                             5000 5000)))
            (fun _ _ => Next true) (fun _ _ => Next true)
            (fun _ => Next true) (fun _ => Next true)
            (fun _ => Next true) (fun _ => Next true))
         "track-4999-xyz9876")
  = Next (Some (Track.mk "track-4999-xyz9876" "Song" "Band" None "rock" 3%Q
                  "audio-track-4999-xyz9876" None 5000 5000)).
Proof.
  apply (proj1 (proj2 (getTrackById_reads_back Sample.storage Sample.envLater
                         initial
                         (mkStorage (Next [])
                            (fun _ =>
                               Next (Some (TrackRecord.mk "track-4999-xyz9876"
                                             "Song" "Band" None "rock" 3%Q
                                             "audio-track-4999-xyz9876" None
                                             5000 5000)))
                            (fun _ _ => Next true) (fun _ _ => Next true)
                            (fun _ => Next true) (fun _ => Next true)
                            (fun _ => Next true) (fun _ => Next true))))
           Sample.form
           (Track.mk "track-4999-xyz9876" "Song" "Band" None "rock" 3%Q
              "audio-track-4999-xyz9876" None 5000 5000)
           (TrackRecord.mk "track-4999-xyz9876" "Song" "Band" None "rock" 3%Q
              "audio-track-4999-xyz9876" None 5000 5000)).
  - reflexivity.
  - simpl. tauto.
  - reflexivity.
Defined.

(* ================================================================== *)
(** ** The file store *)

Lemma idbGet_delete_same key store :
  Storage.idbGet key (Storage.idbDelete key store) = None.
Proof.
  apply (find_filter_none (fun r => Storage.id r =? key)).
Qed.

Lemma idbGet_delete_other key other store :
  other <> key ->
  Storage.idbGet other (Storage.idbDelete key store)
  = Storage.idbGet other store.
Proof.
  intros Hne. apply find_filter_other. intros r Hr.
  apply String.eqb_eq in Hr.
  destruct (String.eqb_spec (Storage.id r) key) as [Heq|]; [|reflexivity].
  elim Hne. now rewrite <- Hr.
Qed.

Lemma getFile_returned key store :
  Storage.returned (Storage.getFile None key (Storage.Resolved store))
  = Storage.idbGet key store.
Proof.
  unfold Storage.getFile. now destruct (Storage.idbGet key store).
Qed.

(** X19. A file that [saveFile] reports saved can be read back: [getFile]
    on its id returns a record with the id, the name, size and type of the
    file, the file itself and the date of the save, whatever was stored
    under that id before; the files of other ids are read as before. *)
Theorem storage_save_then_get now fault fileId file db :
  Storage.returned (Storage.saveFile now fault fileId file db) = true ->
  Storage.returned
    (Storage.getFile None fileId
       (Storage.dbAfter (Storage.saveFile now fault fileId file db)))
  = Some (Storage.mkAudioRecord fileId (file_name file) (file_size file)
            (file_type file) file now) /\
  forall other, other <> fileId ->
    Storage.returned
      (Storage.getFile None other
         (Storage.dbAfter (Storage.saveFile now fault fileId file db)))
    = Storage.returned (Storage.getFile None other db).
Proof.
  unfold Storage.saveFile. destruct db as [store|e]; [|discriminate].
  destruct fault as [e|]; [discriminate|]. intros _.
  cbn [Storage.dbAfter]. split.
  - rewrite getFile_returned. unfold Storage.idbPut, Storage.idbGet. cbn.
    now rewrite String.eqb_refl.
  - intros other Hother. rewrite !getFile_returned.
    unfold Storage.idbPut, Storage.idbGet at 1. cbn.
    destruct (String.eqb_spec fileId other) as [Heq|Hne]; [now elim Hother|].
    now apply idbGet_delete_other.
Qed.

Lemma storage_save_then_get_witness :
  Storage.returned
    (Storage.getFile None "a1"
       (Storage.dbAfter
          (Storage.saveFile 20 None "a1" Sample.song
             (Storage.dbAfter
                (Storage.saveFile 10 None "a1" Sample.picture
                   (Storage.Resolved []))))))
  = Some (Storage.mkAudioRecord "a1" "song.mp3" 4096 "audio/mpeg"
            Sample.song 20).
Proof.
  apply (proj1 (storage_save_then_get 20 None "a1" Sample.song
                  (Storage.dbAfter
                     (Storage.saveFile 10 None "a1" Sample.picture
                        (Storage.Resolved []))) eq_refl)).
Defined.

(** X20. After a deletion that [deleteFile] reports done, [getFile] on
    the id finds nothing and the files of other ids are read as before.
    Deleting an id under which nothing is stored is reported done as
    well. *)
Theorem storage_delete_then_get fault fileId db :
  Storage.returned (Storage.deleteFile fault fileId db) = true ->
  Storage.returned
    (Storage.getFile None fileId
       (Storage.dbAfter (Storage.deleteFile fault fileId db))) = None /\
  (forall other, other <> fileId ->
     Storage.returned
       (Storage.getFile None other
          (Storage.dbAfter (Storage.deleteFile fault fileId db)))
     = Storage.returned (Storage.getFile None other db)) /\
  (Storage.returned (Storage.getFile None fileId db) = None ->
   forall key,
     Storage.returned
       (Storage.getFile None key
          (Storage.dbAfter (Storage.deleteFile fault fileId db)))
     = Storage.returned (Storage.getFile None key db)).
Proof.
  unfold Storage.deleteFile. destruct db as [store|e]; [|discriminate].
  destruct fault as [e|]; [discriminate|]. intros _.
  cbn [Storage.dbAfter]. rewrite !getFile_returned.
  split; [apply idbGet_delete_same|]. split.
  - intros other Hother. rewrite !getFile_returned.
    now apply idbGet_delete_other.
  - intros Hnone key. rewrite !getFile_returned.
    destruct (String.eqb_spec key fileId) as [->|Hne].
    + now rewrite idbGet_delete_same.
    + now apply idbGet_delete_other.
Qed.

Lemma storage_delete_then_get_witness :
  Storage.returned
    (Storage.getFile None "a1"
       (Storage.dbAfter
          (Storage.deleteFile None "a1"
             (Storage.dbAfter
                (Storage.saveFile 10 None "a1" Sample.song
                   (Storage.Resolved [])))))) = None.
Proof.
  apply (proj1 (storage_delete_then_get None "a1"
                  (Storage.dbAfter
                     (Storage.saveFile 10 None "a1" Sample.song
                        (Storage.Resolved []))) eq_refl)).
Defined.

(** X21. The three methods never reject. [saveFile] and [deleteFile]
    report [false] exactly when the opening of the database or the request
    was rejected, and [getFile] then returns [null]; the database is left
    as it was and one line goes to the error console, labelled by the name
    of the
    error: [Storage quota exceeded:] for [QuotaExceededError], [Invalid
    state error:] for [InvalidStateError], [Storage error:] for another
    [Error], [Unknown error:] for a value that is not an [Error]. *)
Theorem storage_rejections now fault fileId file db :
  (Storage.returned (Storage.saveFile now fault fileId file db) = false <->
   Storage.rejection fault db <> None) /\
  (Storage.returned (Storage.deleteFile fault fileId db) = false <->
   Storage.rejection fault db <> None) /\
  (Storage.rejection fault db <> None ->
   Storage.returned (Storage.getFile fault fileId db) = None) /\
  (forall e,
     Storage.rejection fault db = Some e ->
     Storage.dbAfter (Storage.saveFile now fault fileId file db) = db /\
     Storage.dbAfter (Storage.deleteFile fault fileId db) = db /\
     Storage.console (Storage.saveFile now fault fileId file db)
     = Storage.handleError e /\
     Storage.console (Storage.deleteFile fault fileId db)
     = Storage.handleError e /\
     Storage.console (Storage.getFile fault fileId db)
     = Storage.handleError e /\
     exists line,
       Storage.handleError e = [line] /\
       match e with
       | Storage.DomError errorName message =>
           line
           = Storage.ConsoleError
               (if errorName =? "QuotaExceededError"
                then "Storage quota exceeded:"
                else if errorName =? "InvalidStateError"
                then "Invalid state error:"
                else "Storage error:")
               message
       | Storage.NotAnError =>
           line = Storage.ConsoleErrorValue "Unknown error:"
       end).
Proof.
  split; [|split; [|split]].
  - unfold Storage.saveFile.
    destruct db as [store|e0]; destruct fault as [e1|]; cbn;
      split; congruence.
  - unfold Storage.deleteFile.
    destruct db as [store|e0]; destruct fault as [e1|]; cbn;
      split; congruence.
  - unfold Storage.getFile.
    destruct db as [store|e0]; destruct fault as [e1|]; cbn; congruence.
  - intros e He.
    assert (Storage.dbAfter (Storage.saveFile now fault fileId file db) = db /\
            Storage.dbAfter (Storage.deleteFile fault fileId db) = db /\
            Storage.console (Storage.saveFile now fault fileId file db)
            = Storage.handleError e /\
            Storage.console (Storage.deleteFile fault fileId db)
            = Storage.handleError e /\
            Storage.console (Storage.getFile fault fileId db)
            = Storage.handleError e) as (H1 & H2 & H3 & H4 & H5).
    { unfold Storage.saveFile, Storage.deleteFile, Storage.getFile.
      destruct db as [store|e0]; destruct fault as [e1|]; cbn in *;
        try discriminate; injection He as <-; repeat split. }
    repeat (split; [assumption|]).
    destruct e as [errorName message|]; cbn.
    + destruct (errorName =? "QuotaExceededError");
        [|destruct (errorName =? "InvalidStateError")];
        eexists; split; reflexivity.
    + eexists; split; reflexivity.
Qed.

Lemma storage_rejections_witness :
  Storage.dbAfter
    (Storage.saveFile 10 (Some Storage.quota) "a1" Sample.song
       (Storage.Resolved [])) = Storage.Resolved [] /\
  Storage.console
    (Storage.saveFile 10 (Some Storage.quota) "a1" Sample.song
       (Storage.Resolved []))
  = [Storage.ConsoleError "Storage quota exceeded:" "disk full"].
Proof.
  destruct (proj2 (proj2 (proj2 (storage_rejections 10 (Some Storage.quota)
                                   "a1" Sample.song (Storage.Resolved []))))
              Storage.quota eq_refl) as (Hdb & _ & Hconsole & _).
  exact (conj Hdb Hconsole).
Defined.

(* ================================================================== *)
(** ** updateTrack: a new audio and a new cover *)

(** X22. An update that supplies both a new audio and a new cover, on a
    stored track, when the audio is written: the cover is written after
    the old audio has been asked to be deleted. When the cover write
    completes, the record is written last, with the new audio id and with
    the new cover id if the cover write reported [true], the old one
    otherwise. When the cover write errors, the update fails and no
    record is written, after the new audio was written and the deletion of
    the old audio asked for. *)
Theorem updateTrack_audio_then_cover
    S env id updates p existing audioFile cover :
  ans_getTrack S id = Next (Some existing) ->
  up_audioFile updates = Some audioFile ->
  up_coverImage updates = Some cover ->
  ans_saveAudioFile S
    ("audio-" ++ id ++ "-" ++ Js.numberToString (now_audio env)) audioFile
  = Next true ->
  (forall report,
     ans_saveCoverImage S
       ("cover-" ++ id ++ "-" ++ Js.numberToString (now_cover env)) cover
     = Next report ->
     exists record,
       calls (updateTrack S env id updates p)
       = ([GetTrack id;
           SaveAudioFile
             ("audio-" ++ id ++ "-" ++ Js.numberToString (now_audio env))
             audioFile;
           DeleteAudioFile (TrackRecord.audioFileId existing);
           SaveCoverImage
             ("cover-" ++ id ++ "-" ++ Js.numberToString (now_cover env))
             cover]
          ++ deleteOldCover S existing ++ [SaveTrack record])%list /\
       TrackRecord.audioFileId record
       = "audio-" ++ id ++ "-" ++ Js.numberToString (now_audio env) /\
       TrackRecord.coverImageId record
       = (if report
          then Some ("cover-" ++ id ++ "-"
                     ++ Js.numberToString (now_cover env))
          else TrackRecord.coverImageId existing)) /\
  (forall e,
     ans_saveCoverImage S
       ("cover-" ++ id ++ "-" ++ Js.numberToString (now_cover env)) cover
     = Err e ->
     emitted (updateTrack S env id updates p) = None /\
     _error (after (updateTrack S env id updates p)) = Some (messageOf e) /\
     calls (updateTrack S env id updates p)
     = [GetTrack id;
        SaveAudioFile
          ("audio-" ++ id ++ "-" ++ Js.numberToString (now_audio env))
          audioFile;
        DeleteAudioFile (TrackRecord.audioFileId existing);
        SaveCoverImage
          ("cover-" ++ id ++ "-" ++ Js.numberToString (now_cover env))
          cover]).
Proof.
  intros Hg Ha Hc Hs. unfold updateTrack. unfold_rx.
  rewrite Hg, Ha, Hc. cbn in *. rewrite Hs. cbn.
  destruct (mediaDuration env audioFile) as [d|]; cbn.
  all: split; [intros report Hr|intros e He]; rewrite ?Hr, ?He; cbn.
  1,3: destruct (Js.truthy (TrackRecord.coverImageId existing)); cbn.
  1-4: eexists; split; [reflexivity|split; reflexivity].
  all: destruct e; auto.
Qed.

Lemma updateTrack_audio_then_cover_witness :
  emitted (updateTrack Sample.storageCoverWriteError Sample.envLater Sample.id
             (mkUpdates None None None None (Some Sample.song)
                (Some Sample.picture))
             Sample.projection) = None /\
  calls (updateTrack Sample.storageCoverWriteError Sample.envLater Sample.id
           (mkUpdates None None None None (Some Sample.song)
              (Some Sample.picture))
           Sample.projection)
  = [GetTrack Sample.id;
     SaveAudioFile "audio-track-1000-abc1234-4000" Sample.song;
     DeleteAudioFile "audio-track-1000-abc1234";
     SaveCoverImage "cover-track-1000-abc1234-4500" Sample.picture].
Proof.
  destruct (proj2 (updateTrack_audio_then_cover Sample.storageCoverWriteError
                     Sample.envLater Sample.id
                     (mkUpdates None None None None (Some Sample.song)
                        (Some Sample.picture))
                     Sample.projection Sample.record Sample.song
                     Sample.picture eq_refl eq_refl eq_refl eq_refl)
              (Js.Error "quota") eq_refl) as (He & _ & Hc).
  exact (conj He Hc).
Defined.
